(** * The renderer task pool of electron-remote ([src/renderer-require.js])

    [requireTaskPool] builds a [RendererTaskpoolItem]: a stack of idle
    background windows ([freeWindowList]), a stream of invocations
    ([invocationQueue]) that is mapped to deferred remote calls and merged
    with a concurrency limit ([.merge(maxConcurrency)]), and a throttled
    completion stream ([completionQueue]) whose subscriber burns every idle
    window.

    The development embeds that pipeline as a deterministic machine over an
    explicit pool state.  The environment (callers of the proxy, the
    windows that finish loading, the replies of remote calls, the clock)
    is a list of events. *)

From stdpp Require Import gmap strings list fin_maps.
From Stdlib Require Import ZArith Lia.

Local Open Scope Z_scope.

(** ** Data *)

(** Arguments and results that cross the process boundary. *)
Inductive value : Type :=
| VUndefined
| VBool (b : bool)
| VNum (z : Z)
| VStr (s : string).

(** The error objects a future can be rejected with, by origin. The source
    uses plain [Error] objects and never inspects them. *)
Inductive error : Type :=
| SpawnError (msg : string)
| InvocationError (msg : string)
| FatalWorkerError (msg : string)
| TimeoutError.

(** What the observable of one remote call ends with. *)
Inductive outcome : Type :=
| Returned (v : value)
| Failed (e : error).

(** The object [rendererRequireDirect] returns: a handle on one hidden
    [BrowserWindow]; [bw] identifies the window. *)
Record Wnd : Type := mkWnd { bw : nat }.

(** State of a [retval] ([AsyncSubject], read through [toPromise]). *)
Inductive Future : Type :=
| Pending
| Resolved (v : value)
| Rejected (e : error).

(** The object pushed on [invocationQueue]: [{chain, args, retval}];
    [retval] is the reference of the [AsyncSubject] in the store. *)
Record Invocation : Type := mkInvocation {
  chain : list string;
  args : list value;
  retval : nat
}.

(** A remote call that was sent and has not answered yet:
    [executeJavaScriptMethodObservable(bw, timeout, chain, ...args)]. *)
Record Call : Type := mkCall {
  c_wnd : Wnd;
  c_timeout : Z;
  c_inv : Invocation;
  c_sent : Z
}.

(** What the machine does, in the order it does it. *)
Inductive Obs : Type :=
| OQueue (methodChain : list string) (a : list value) (r : nat)
| OStart (r : nat)
| OSpawn (b : nat) (r : nat)
| OInvoke (w : Wnd) (timeout : Z) (c : list string) (a : list value) (r : nat)
| OSettle (r : nat) (o : outcome)
| OCompletion (w : Wnd)
| OReap
| ODispose (w : Wnd)
| OThrow (e : error).

(** The closure state of the [RendererTaskpoolItem] constructor, with the
    state of the Rx operators it subscribes and the outstanding
    asynchronous operations. *)
Record Pool : Type := mkPool {
  modulePath : string;
  maxConcurrency : Z;
  freeWindowList : list Wnd;
  (* observer of [.merge(maxConcurrency)] *)
  activeCount : nat;
  q : list Invocation;
  isStopped : bool;
  (* promises of [rendererRequireDirect] not settled yet *)
  loading : list (nat * Invocation);
  (* remote calls not answered yet *)
  running : list Call;
  (* the [retval] subjects *)
  retvals : gmap nat Future;
  nextRetval : nat;
  nextBw : nat;
  (* timer of [guaranteedThrottle]: the instant it fires at *)
  throttle : option Z;
  now : Z;
  trace : list (Z * Obs)
}.

Section Setters.
Variable s : Pool.

Definition set_freeWindowList (v : list Wnd) : Pool :=
  mkPool (modulePath s) (maxConcurrency s) v (activeCount s) (q s)
    (isStopped s) (loading s) (running s) (retvals s) (nextRetval s)
    (nextBw s) (throttle s) (now s) (trace s).
Definition set_activeCount (v : nat) : Pool :=
  mkPool (modulePath s) (maxConcurrency s) (freeWindowList s) v (q s)
    (isStopped s) (loading s) (running s) (retvals s) (nextRetval s)
    (nextBw s) (throttle s) (now s) (trace s).
Definition set_q (v : list Invocation) : Pool :=
  mkPool (modulePath s) (maxConcurrency s) (freeWindowList s)
    (activeCount s) v (isStopped s) (loading s) (running s) (retvals s)
    (nextRetval s) (nextBw s) (throttle s) (now s) (trace s).
Definition set_isStopped (v : bool) : Pool :=
  mkPool (modulePath s) (maxConcurrency s) (freeWindowList s)
    (activeCount s) (q s) v (loading s) (running s) (retvals s)
    (nextRetval s) (nextBw s) (throttle s) (now s) (trace s).
Definition set_loading (v : list (nat * Invocation)) : Pool :=
  mkPool (modulePath s) (maxConcurrency s) (freeWindowList s)
    (activeCount s) (q s) (isStopped s) v (running s) (retvals s)
    (nextRetval s) (nextBw s) (throttle s) (now s) (trace s).
Definition set_running (v : list Call) : Pool :=
  mkPool (modulePath s) (maxConcurrency s) (freeWindowList s)
    (activeCount s) (q s) (isStopped s) (loading s) v (retvals s)
    (nextRetval s) (nextBw s) (throttle s) (now s) (trace s).
Definition set_retvals (v : gmap nat Future) : Pool :=
  mkPool (modulePath s) (maxConcurrency s) (freeWindowList s)
    (activeCount s) (q s) (isStopped s) (loading s) (running s) v
    (nextRetval s) (nextBw s) (throttle s) (now s) (trace s).
Definition set_nextRetval (v : nat) : Pool :=
  mkPool (modulePath s) (maxConcurrency s) (freeWindowList s)
    (activeCount s) (q s) (isStopped s) (loading s) (running s)
    (retvals s) v (nextBw s) (throttle s) (now s) (trace s).
Definition set_nextBw (v : nat) : Pool :=
  mkPool (modulePath s) (maxConcurrency s) (freeWindowList s)
    (activeCount s) (q s) (isStopped s) (loading s) (running s)
    (retvals s) (nextRetval s) v (throttle s) (now s) (trace s).
Definition set_throttle (v : option Z) : Pool :=
  mkPool (modulePath s) (maxConcurrency s) (freeWindowList s)
    (activeCount s) (q s) (isStopped s) (loading s) (running s)
    (retvals s) (nextRetval s) (nextBw s) v (now s) (trace s).
Definition set_now (v : Z) : Pool :=
  mkPool (modulePath s) (maxConcurrency s) (freeWindowList s)
    (activeCount s) (q s) (isStopped s) (loading s) (running s)
    (retvals s) (nextRetval s) (nextBw s) (throttle s) v (trace s).
Definition set_trace (v : list (Z * Obs)) : Pool :=
  mkPool (modulePath s) (maxConcurrency s) (freeWindowList s)
    (activeCount s) (q s) (isStopped s) (loading s) (running s)
    (retvals s) (nextRetval s) (nextBw s) (throttle s) (now s) v.

(** Append one observation, stamped with the current instant. *)
Definition log (o : Obs) : Pool := set_trace (trace s ++ [(now s, o)]).
End Setters.

(** ** Arrays *)

(** [Array.prototype.pop]: removes and returns the last element;
    [undefined] on an empty array. *)
Fixpoint pop {A : Type} (l : list A) : option A * list A :=
  match l with
  | [] => (None, [])
  | x :: l' =>
      match l' with
      | [] => (Some x, [])
      | _ :: _ => let (r, l'') := pop l' in (r, x :: l'')
      end
  end.

(** [Array.prototype.push]. *)
Definition push {A : Type} (l : list A) (x : A) : list A := l ++ [x].

(** [Array.prototype.shift]: removes and returns the first element. *)
Definition shift {A : Type} (l : list A) : option A * list A :=
  match l with
  | [] => (None, [])
  | x :: l' => (Some x, l')
  end.

(** [methodChain.splice(1)]: the removed elements, everything from index 1
    on. *)
Definition splice1 {A : Type} (l : list A) : list A := drop 1 l.

(** ** Constants of the source *)

(** [maxConcurrency=4] in the signature of [requireTaskPool]. *)
Definition defaultMaxConcurrency : Z := 4.

(** [5*1000] in [completionQueue.guaranteedThrottle(5*1000)]. *)
Definition idleReapIntervalMs : Z := 5 * 1000.

(** [240*1000] in the [executeJavaScriptMethodObservable] member of the
    object [rendererRequireDirect] returns. *)
Definition invokeTimeoutMs : Z := 240 * 1000.

(** ** Remote calls *)

(** [wnd.executeJavaScriptMethodObservable(chain, ...args)], that is
    [executeJavaScriptMethodObservable(bw, 240*1000, chain, ...args)]: the
    request is sent at once and the call is outstanding until its
    observable ends. *)
Definition executeJavaScriptMethodObservable (w : Wnd) (inv : Invocation)
    (s : Pool) : Pool :=
  let s := log s (OInvoke w invokeTimeoutMs (chain inv) (args inv) (retval inv)) in
  set_running s (push (running s) (mkCall w invokeTimeoutMs inv (now s))).

(** Start of [rendererRequireDirect(modulePath)]: a [BrowserWindow] is
    created and the promise stays pending until the page is loaded. *)
Definition rendererRequireDirect (inv : Invocation) (s : Pool) : Pool :=
  let b := nextBw s in
  let s := log s (OSpawn b (retval inv)) in
  let s := set_nextBw s (S b) in
  set_loading s (push (loading s) (b, inv)).

(** [getOrCreateWindow], followed by the [flatMap] continuation when the
    window is there at once ([Observable.return(item)]). *)
Definition getOrCreateWindow (inv : Invocation) (s : Pool) : Pool :=
  match pop (freeWindowList s) with
  | (Some item, rest) =>
      executeJavaScriptMethodObservable item inv (set_freeWindowList s rest)
  | (None, _) => rendererRequireDirect inv s
  end.

(** ** The merge with a concurrency limit *)

(** [MergeObserver.handleSubscribe] of rx: subscribes the inner observable,
    here the [Observable.defer] built for one invocation. *)
Definition handleSubscribe (inv : Invocation) (s : Pool) : Pool :=
  getOrCreateWindow inv (log s (OStart (retval inv))).

(** [MergeObserver.next] of rx: subscribe while fewer than [max] inner
    observables are active, queue otherwise. *)
Definition merge_next (inv : Invocation) (s : Pool) : Pool :=
  if Z.of_nat (activeCount s) <? maxConcurrency s
  then handleSubscribe inv (set_activeCount s (S (activeCount s)))
  else set_q s (push (q s) inv).

(** [InnerObserver.completed] of rx: an inner observable ended; the oldest
    queued one takes its place, or the count of active ones drops. *)
Definition merge_inner_completed (s : Pool) : Pool :=
  match shift (q s) with
  | (Some inv, rest) => handleSubscribe inv (set_q s rest)
  | (None, _) => set_activeCount s (pred (activeCount s))
  end.

(** [InnerObserver.error] of rx: the error goes to the subscriber, whose
    subscription is disposed; [subscribe] was given no error handler, so
    the default one rethrows. *)
Definition merge_inner_error (e : error) (s : Pool) : Pool :=
  log (set_isStopped s true) (OThrow e).

(** [invocationQueue.onNext]: a [Subject] forwards to its observers; once
    the subscription is disposed there is none. *)
Definition invocationQueue_onNext (inv : Invocation) (s : Pool) : Pool :=
  if isStopped s then s else merge_next inv s.

(** The callback given to [subscribe]: the window goes back on the stack
    and the completion is signalled. The handles of this model always have
    a [dispose], so the [Bogus!] guard does not fire.

    Modelled from the spec: [guaranteedThrottle] is defined in
    [custom-operators.js], which is not part of the sources at hand; by the
    spec the reaper fires only after a quiet interval with no new
    completion and is reset by any completion, so a completion (re)arms one
    timer [idleReapIntervalMs] from now. *)
Definition subscriber_onNext (w : Wnd) (s : Pool) : Pool :=
  let s := set_freeWindowList s (push (freeWindowList s) w) in
  let s := log s (OCompletion w) in
  set_throttle s (Some (now s + idleReapIntervalMs)).

(** ** The proxy *)

(** The callback given to [RecursiveProxyHandler.create]: returns the
    promise of a fresh [retval]. *)
Definition moduleProxy (methodChain : list string) (a : list value)
    (s : Pool) : nat * Pool :=
  let chain := splice1 methodChain in
  let r := nextRetval s in
  let s := log s (OQueue methodChain a r) in
  let s := set_nextRetval (set_retvals s (<[r := Pending]> (retvals s))) (S r) in
  (r, invocationQueue_onNext (mkInvocation ("requiredModule"%string :: chain) a r) s).

(** ** The idle reaper *)

(** The loop [while (freeWindowList.length > 0) { pop; dispose }]; [fuel]
    bounds the iterations and is the length of the list at the call. *)
Fixpoint burn (fuel : nat) (s : Pool) : Pool :=
  match fuel with
  | O => s
  | S fuel' =>
      match pop (freeWindowList s) with
      | (Some w, rest) => burn fuel' (log (set_freeWindowList s rest) (ODispose w))
      | (None, _) => s
      end
  end.

(** The subscriber of [completionQueue.guaranteedThrottle(5*1000)]. *)
Definition reap (s : Pool) : Pool :=
  let s := log (set_throttle s None) OReap in
  burn (length (freeWindowList s)) s.

(** ** Events *)

Inductive Event : Type :=
| Invoke (methodChain : list string) (a : list value)
| Loaded (b : nat) (failure : option string)
| Reply (r : nat) (o : outcome)
| Tick.

(** First outstanding call of [retval] [r], and the others. *)
Fixpoint take_call (r : nat) (l : list Call) : option (Call * list Call) :=
  match l with
  | [] => None
  | c :: l' =>
      if decide (retval (c_inv c) = r) then Some (c, l')
      else match take_call r l' with
           | Some (c', l'') => Some (c', c :: l'')
           | None => None
           end
  end.

(** First pending load of window [b], and the others. *)
Fixpoint take_load (b : nat) (l : list (nat * Invocation))
    : option (Invocation * list (nat * Invocation)) :=
  match l with
  | [] => None
  | (b', inv) :: l' =>
      if decide (b' = b) then Some (inv, l')
      else match take_load b l' with
           | Some (inv', l'') => Some (inv', (b', inv) :: l'')
           | None => None
           end
  end.

Definition settle (o : outcome) : Future :=
  match o with
  | Returned v => Resolved v
  | Failed e => Rejected e
  end.

(** The observable [ret] of a remote call ends. [retval] was connected
    first ([ret.multicast(retval).connect()]) and on its own, so it is
    settled in any case; then [ret.map(() => wnd).catch(Observable.return(wnd))]
    hands the window to the subscriber and completes, if the subscription
    is still there. *)
Definition on_reply (r : nat) (o : outcome) (s : Pool) : Pool :=
  match take_call r (running s) with
  | None => s
  | Some (c, rest) =>
      let s := set_running s rest in
      let s := log (set_retvals s (<[r := settle o]> (retvals s))) (OSettle r o) in
      if isStopped s then s
      else merge_inner_completed (subscriber_onNext (c_wnd c) s)
  end.

(** The promise of [rendererRequireDirect] settles: with the handle, and
    the [flatMap] continuation sends the call; or with the error thrown
    for [window.moduleLoadFailure], which nothing catches before the
    merge. *)
Definition on_loaded (b : nat) (failure : option string) (s : Pool) : Pool :=
  match take_load b (loading s) with
  | None => s
  | Some (inv, rest) =>
      let s := set_loading s rest in
      if isStopped s then s
      else match failure with
           | None => executeJavaScriptMethodObservable (mkWnd b) inv s
           | Some msg => merge_inner_error (SpawnError msg) s
           end
  end.

(** Modelled from the spec: [executeJavaScriptMethodObservable] of
    [execute-js-func.js] is not part of the sources at hand and the spec
    does not describe its timeout; the call site passes it [240*1000] as
    the timeout in milliseconds, and the model takes the observable to
    fail with a timeout error once that long has passed without a reply. *)
Definition overdue (t : Z) (c : Call) : bool := c_sent c + c_timeout c <=? t.

Definition fire_timeouts (s : Pool) : Pool :=
  foldl (fun s r => on_reply r (Failed TimeoutError) s) s
    (map (fun c => retval (c_inv c)) (filter (fun c => overdue (now s) c = true) (running s))).

Definition fire_throttle (s : Pool) : Pool :=
  match throttle s with
  | Some d => if d <=? now s then reap s else s
  | None => s
  end.

(** One millisecond passes; the timers that are due fire, the older ones
    first. *)
Definition tick (s : Pool) : Pool :=
  fire_throttle (fire_timeouts (set_now s (now s + 1))).

Definition step (s : Pool) (e : Event) : Pool :=
  match e with
  | Invoke methodChain a => snd (moduleProxy methodChain a s)
  | Loaded b failure => on_loaded b failure s
  | Reply r o => on_reply r o s
  | Tick => tick s
  end.

Definition run (s : Pool) (es : list Event) : Pool := foldl step s es.

(** [new RendererTaskpoolItem(modulePath, maxConcurrency)]. *)
Definition RendererTaskpoolItem (path : string) (max : Z) : Pool :=
  mkPool path max [] 0 [] false [] [] ∅ 0 0 None 0 [].

(** [requireTaskPool(modulePath, maxConcurrency=4)]; [None] is the omitted
    argument. *)
Definition requireTaskPool (path : string) (max : option Z) : Pool :=
  RendererTaskpoolItem path (default defaultMaxConcurrency max).

(** * Verification *)

(** ** Arrays and searches *)

Lemma run_snoc s es e : run s (es ++ [e]) = step (run s es) e.
Proof. unfold run. by rewrite foldl_app. Qed.

Lemma run_cons s e es : run s (e :: es) = run (step s e) es.
Proof. done. Qed.

Lemma run_app s es1 es2 : run s (es1 ++ es2) = run (run s es1) es2.
Proof. unfold run. by rewrite foldl_app. Qed.

(** A property that the initial state has and every step keeps holds
    after every run. *)
Lemma run_invariant (P : Pool -> Prop) :
  (forall s e, P s -> P (step s e)) ->
  forall es s, P s -> P (run s es).
Proof.
  intros Hstep es. induction es as [|e es IH]; intros s Hs; [done|].
  simpl. apply IH, Hstep, Hs.
Qed.

Lemma pop_snoc {A} (l : list A) x : pop (l ++ [x]) = (Some x, l).
Proof.
  induction l as [|y l IH]; [done|].
  simpl. destruct (l ++ [x]) eqn:E.
  - destruct l; discriminate.
  - by rewrite IH.
Qed.

(** The two ways [pop] can go. *)
Inductive pop_view {A} (l : list A) : option A * list A -> Prop :=
| pop_view_nil : l = [] -> pop_view l (None, [])
| pop_view_snoc l' x : l = l' ++ [x] -> pop_view l (Some x, l').

Lemma pop_spec {A} (l : list A) : pop_view l (pop l).
Proof.
  destruct l as [|y l _] using rev_ind.
  - by constructor.
  - rewrite pop_snoc. by econstructor.
Qed.

Definition call_id (c : Call) : nat := retval (c_inv c).

Lemma take_call_Some r l c rest :
  take_call r l = Some (c, rest) ->
  exists l1 l2, l = l1 ++ c :: l2 /\ rest = l1 ++ l2 /\ call_id c = r
                /\ r ∉ map call_id l1.
Proof.
  revert c rest. induction l as [|c0 l IH]; intros c rest; [done|].
  simpl. case_decide as Hc.
  - intros [= <- <-]. exists [], l. split_and!; [done..|]. simpl. set_solver.
  - destruct (take_call r l) as [[c' l'']|]; [|done].
    intros [= <- <-]. destruct (IH _ _ eq_refl) as (l1 & l2 & -> & -> & Hr & Hn).
    exists (c0 :: l1), l2. split_and!; [done..|].
    simpl. rewrite not_elem_of_cons. done.
Qed.

Lemma take_call_None r l : take_call r l = None <-> r ∉ map call_id l.
Proof.
  induction l as [|c0 l IH]; simpl.
  - split; [set_solver|done].
  - rewrite not_elem_of_cons. case_decide as Hc.
    + split; [done|]. intros [Hn _]. by destruct Hn.
    + destruct (take_call r l) as [[c' l'']|].
      * split; [done|]. intros [_ Hn]. by apply IH in Hn.
      * split; [|done]. intros _. split; [unfold call_id; congruence|by apply IH].
Qed.

Lemma take_load_Some b l inv rest :
  take_load b l = Some (inv, rest) ->
  exists l1 l2, l = l1 ++ (b, inv) :: l2 /\ rest = l1 ++ l2.
Proof.
  revert inv rest. induction l as [|[b0 i0] l IH]; intros inv rest; [done|].
  simpl. case_decide as Hc.
  - intros [= <- <-]. subst. by exists [], l.
  - destruct (take_load b l) as [[i' l'']|]; [|done].
    intros [= <- <-]. destruct (IH _ _ eq_refl) as (l1 & l2 & -> & ->).
    by exists ((b0, i0) :: l1), l2.
Qed.

(** ** What the reaper changes *)

Lemma burn_spec n s :
  n = length (freeWindowList s) ->
  burn n s =
    set_trace (set_freeWindowList s [])
      (trace s ++ map (fun w => (now s, ODispose w)) (reverse (freeWindowList s))).
Proof.
  revert s. induction n as [|n IH]; intros s Hn.
  - destruct s as [? ? fl ? ? ? ? ? ? ? ? ? ? ?]; simpl in *.
    destruct fl; [|done]. simpl. by rewrite app_nil_r.
  - simpl. destruct (pop_spec (freeWindowList s)) as [E|l' x E].
    + rewrite E in Hn. done.
    + rewrite IH.
      * destruct s as [? ? fl ? ? ? ? ? ? ? ? ? ? ?]; simpl in *. subst fl.
        unfold set_trace, set_freeWindowList, log; simpl.
        rewrite reverse_snoc. simpl. by rewrite <- app_assoc.
      * simpl. rewrite E, length_app in Hn. simpl in Hn. lia.
Qed.

Lemma reap_spec s :
  reap s =
    set_trace (set_throttle (set_freeWindowList s []) None)
      (trace s ++ (now s, OReap)
         :: map (fun w => (now s, ODispose w)) (reverse (freeWindowList s))).
Proof.
  unfold reap. rewrite burn_spec by done.
  destruct s; simpl. unfold set_trace, set_freeWindowList, set_throttle, log; simpl.
  by rewrite <- app_assoc.
Qed.

Lemma foldl_invariant {A B} (P : A -> Prop) (f : A -> B -> A) l :
  (forall a b, P a -> P (f a b)) -> forall a, P a -> P (foldl f a l).
Proof. intros Hf. induction l as [|b l IH]; intros a Ha; simpl; auto. Qed.

(** ** The configuration is fixed at construction *)

Lemma maxConcurrency_handleSubscribe inv s :
  maxConcurrency (handleSubscribe inv s) = maxConcurrency s.
Proof.
  unfold handleSubscribe, getOrCreateWindow. simpl.
  by destruct (pop (freeWindowList s)) as [[w|] rest].
Qed.

Lemma maxConcurrency_on_reply r o s :
  maxConcurrency (on_reply r o s) = maxConcurrency s.
Proof.
  unfold on_reply. destruct (take_call r (running s)) as [[c rest]|]; [|done].
  simpl. destruct (isStopped s); [done|].
  unfold merge_inner_completed. simpl. destruct (q s); [done|].
  simpl. by rewrite maxConcurrency_handleSubscribe.
Qed.

Lemma maxConcurrency_step s e : maxConcurrency (step s e) = maxConcurrency s.
Proof.
  destruct e; simpl.
  - unfold invocationQueue_onNext, merge_next. simpl.
    destruct (isStopped s); [done|]. simpl.
    destruct (_ <? _); [|done]. by rewrite maxConcurrency_handleSubscribe.
  - unfold on_loaded. destruct (take_load b (loading s)) as [[inv rest]|]; [|done].
    simpl. destruct (isStopped s); [done|]. by destruct failure.
  - apply maxConcurrency_on_reply.
  - unfold tick, fire_throttle. set (s1 := fire_timeouts _).
    assert (maxConcurrency s1 = maxConcurrency s) as H1.
    { unfold s1, fire_timeouts.
      apply (foldl_invariant (fun s' => maxConcurrency s' = maxConcurrency s)); [|done].
      intros a r H. by rewrite maxConcurrency_on_reply. }
    destruct (throttle s1); [|done]. destruct (_ <=? _); [|done].
    by rewrite reap_spec.
Qed.

Lemma maxConcurrency_run s es : maxConcurrency (run s es) = maxConcurrency s.
Proof.
  apply (run_invariant (fun s' => maxConcurrency s' = maxConcurrency s)); [|done].
  intros s0 e H. by rewrite maxConcurrency_step.
Qed.

(** ** The concurrency bound *)

(** Invocations that hold a slot of the merge: their window is loading or
    their call is running. *)
Definition busy (s : Pool) : nat := (length (loading s) + length (running s))%nat.

Definition slots_ok (s : Pool) : Prop :=
  (busy s <= activeCount s)%nat /\ Z.of_nat (activeCount s) <= maxConcurrency s.

Lemma slots_ok_handleSubscribe inv s :
  (S (busy s) <= activeCount s)%nat ->
  Z.of_nat (activeCount s) <= maxConcurrency s ->
  slots_ok (handleSubscribe inv s).
Proof.
  unfold slots_ok, busy, handleSubscribe, getOrCreateWindow. intros H1 H2.
  simpl. destruct (pop_spec (freeWindowList s)); simpl;
    unfold push; rewrite length_app; simpl; lia.
Qed.

Lemma slots_ok_on_reply r o s : slots_ok s -> slots_ok (on_reply r o s).
Proof.
  intros [H1 H2]. unfold on_reply.
  destruct (take_call r (running s)) as [[c rest]|] eqn:E; [|done].
  apply take_call_Some in E as (l1 & l2 & E & -> & _).
  assert (S (length (l1 ++ l2)) = length (running s)) as Hlen.
  { rewrite E, !length_app. simpl. lia. }
  unfold busy in H1. simpl. destruct (isStopped s).
  - split; unfold busy; simpl; lia.
  - unfold merge_inner_completed, subscriber_onNext. simpl.
    destruct (q s) as [|inv rest]; simpl.
    + split; unfold busy; simpl; lia.
    + apply slots_ok_handleSubscribe; unfold busy; simpl; lia.
Qed.

Lemma slots_ok_on_loaded b f s : slots_ok s -> slots_ok (on_loaded b f s).
Proof.
  intros [H1 H2]. unfold on_loaded.
  destruct (take_load b (loading s)) as [[inv rest]|] eqn:E; [|done].
  apply take_load_Some in E as (l1 & l2 & E & ->).
  assert (S (length (l1 ++ l2)) = length (loading s)) as Hlen.
  { rewrite E, !length_app. simpl. lia. }
  unfold busy in H1. simpl. destruct (isStopped s).
  - split; unfold busy; simpl; lia.
  - rewrite length_app in Hlen.
    destruct f; split; unfold busy; simpl; unfold push;
      rewrite ?length_app; simpl; lia.
Qed.

Lemma slots_ok_moduleProxy c a s : slots_ok s -> slots_ok (snd (moduleProxy c a s)).
Proof.
  intros [H1 H2]. unfold moduleProxy, invocationQueue_onNext, merge_next. simpl.
  destruct (isStopped s); [done|]. simpl.
  destruct (Z.ltb_spec (Z.of_nat (activeCount s)) (maxConcurrency s)).
  - apply slots_ok_handleSubscribe; unfold busy in *; simpl; lia.
  - done.
Qed.

Lemma slots_ok_tick s : slots_ok s -> slots_ok (tick s).
Proof.
  intros H. unfold tick, fire_throttle.
  set (s1 := fire_timeouts _).
  assert (slots_ok s1) as H1.
  { unfold s1, fire_timeouts. apply foldl_invariant.
    - intros. by apply slots_ok_on_reply.
    - done. }
  destruct (throttle s1) as [d|]; [|done].
  destruct (d <=? now s1); [|done].
  rewrite reap_spec. done.
Qed.

Lemma slots_ok_step s e : slots_ok s -> slots_ok (step s e).
Proof.
  destruct e; simpl.
  - apply slots_ok_moduleProxy.
  - apply slots_ok_on_loaded.
  - apply slots_ok_on_reply.
  - apply slots_ok_tick.
Qed.

(** Once every slot is taken, a call on the proxy only lengthens the
    queue. *)
Lemma saturated_queues s n c a :
  isStopped s = false ->
  maxConcurrency s <= Z.of_nat (activeCount s) ->
  length (q (run s (replicate n (Invoke c a)))) = (length (q s) + n)%nat
  /\ running (run s (replicate n (Invoke c a))) = running s
  /\ loading (run s (replicate n (Invoke c a))) = loading s
  /\ activeCount (run s (replicate n (Invoke c a))) = activeCount s.
Proof.
  revert s. induction n as [|n IH]; intros s Hs Hm.
  - simpl. split_and!; [lia|done..].
  - rewrite replicate_S, run_cons.
    assert (isStopped (step s (Invoke c a)) = false
            /\ maxConcurrency (step s (Invoke c a)) = maxConcurrency s
            /\ activeCount (step s (Invoke c a)) = activeCount s
            /\ length (q (step s (Invoke c a))) = S (length (q s))
            /\ running (step s (Invoke c a)) = running s
            /\ loading (step s (Invoke c a)) = loading s)
      as (E1 & E2 & E3 & E4 & E5 & E6).
    { unfold step, moduleProxy, invocationQueue_onNext, merge_next. simpl.
      rewrite Hs. simpl.
      destruct (Z.ltb_spec (Z.of_nat (activeCount s)) (maxConcurrency s)); [lia|].
      simpl. unfold push. rewrite length_app. simpl. split_and!; [done..|lia|done|done]. }
    destruct (IH (step s (Invoke c a))) as (I1 & I2 & I3 & I4); [done|lia|].
    rewrite I1, I2, I3, I4, E3, E4, E5, E6.
    split_and!; [lia|done..].
Qed.

(** C1. In every state a pool reaches, however the calls, the loads, the
    replies and the clock interleave, the invocations that hold a window
    (and those still waiting for their window to load) number at most
    [maxConcurrency]; and from a state where every slot is taken, any
    number [n] of further calls is queued, none is refused. *)
Theorem concurrency_bound path max es :
  0 <= max ->
  let s := run (RendererTaskpoolItem path max) es in
  Z.of_nat (length (running s)) <= max
  /\ Z.of_nat (busy s) <= max
  /\ forall n c a,
       isStopped s = false ->
       max <= Z.of_nat (activeCount s) ->
       length (q (run s (replicate n (Invoke c a)))) = (length (q s) + n)%nat
       /\ running (run s (replicate n (Invoke c a))) = running s.
Proof.
  intros Hmax s.
  assert (maxConcurrency s = max) as Hm by (unfold s; by rewrite maxConcurrency_run).
  assert (slots_ok s) as [H1 H2].
  { unfold s. apply (run_invariant slots_ok).
    - intros s0 e. apply slots_ok_step.
    - split; simpl; [unfold busy; simpl; lia|lia]. }
  unfold busy in *. split_and!; [lia..|].
  intros n c a Hs Hsat. destruct (saturated_queues s n c a) as (Q1 & Q2 & _); [done|lia|].
  done.
Qed.

(** With the default of four slots and six calls in a row, four windows
    are loading and two invocations wait. *)
Lemma concurrency_bound_witness :
  0 <= 4 /\
  let s := run (RendererTaskpoolItem "m" 4) (replicate 6 (Invoke ["m"; "f"]%string [])) in
  Z.of_nat (length (running s)) <= 4
  /\ Z.of_nat (busy s) <= 4
  /\ forall n c a,
       isStopped s = false ->
       4 <= Z.of_nat (activeCount s) ->
       length (q (run s (replicate n (Invoke c a)))) = (length (q s) + n)%nat
       /\ running (run s (replicate n (Invoke c a))) = running s.
Proof.
  split; [lia|].
  apply (concurrency_bound "m" 4 (replicate 6 (Invoke ["m"; "f"]%string []))). lia.
Defined.

Example six_calls_four_slots :
  let s := run (requireTaskPool "m" None) (replicate 6 (Invoke ["m"; "f"]%string [])) in
  busy s = 4%nat /\ length (q s) = 2%nat /\ isStopped s = false /\ activeCount s = 4%nat.
Proof. vm_compute. done. Qed.


(** ** Dispatch starts in the order of the calls *)

(** The [retval]s of the calls made on the proxy, in the order of the
    calls. *)
Definition submissions (tr : list (Z * Obs)) : list nat :=
  omap (fun x => match snd x with OQueue _ _ r => Some r | _ => None end) tr.

(** The [retval]s of the invocations whose deferred observable the merge
    subscribed (a slot was free for them), in the order of the
    subscriptions. *)
Definition starts (tr : list (Z * Obs)) : list nat :=
  omap (fun x => match snd x with OStart r => Some r | _ => None end) tr.

(** The [retval]s that were settled, in the order they were. *)
Definition settlements (tr : list (Z * Obs)) : list nat :=
  omap (fun x => match snd x with OSettle r _ => Some r | _ => None end) tr.

Definition fifo_ok (s : Pool) : Prop :=
  (isStopped s = false -> q s = [] \/ maxConcurrency s <= Z.of_nat (activeCount s))
  /\ exists rest, submissions (trace s) = starts (trace s) ++ rest
                  /\ (isStopped s = false -> rest = map retval (q s)).

Ltac trace_simpl :=
  unfold submissions, starts, settlements, log, push in *; simpl in *;
  rewrite ?omap_app in *; simpl in *; rewrite ?app_nil_r in *.

Lemma handleSubscribe_starts inv s :
  starts (trace (handleSubscribe inv s)) = starts (trace s) ++ [retval inv]
  /\ submissions (trace (handleSubscribe inv s)) = submissions (trace s)
  /\ q (handleSubscribe inv s) = q s
  /\ isStopped (handleSubscribe inv s) = isStopped s
  /\ activeCount (handleSubscribe inv s) = activeCount s.
Proof.
  unfold handleSubscribe, getOrCreateWindow. simpl.
  destruct (pop (freeWindowList s)) as [[w|] rest]; trace_simpl; done.
Qed.

Lemma fifo_ok_on_reply r o s : fifo_ok s -> fifo_ok (on_reply r o s).
Proof.
  intros [H1 (rest & H2 & H3)]. unfold on_reply.
  destruct (take_call r (running s)) as [[c rest']|]; [|by split; eauto].
  simpl. destruct (isStopped s) eqn:Hs.
  - split; simpl; [by rewrite Hs|]. exists rest. trace_simpl. by rewrite Hs.
  - specialize (H3 eq_refl). subst rest.
    unfold merge_inner_completed, subscriber_onNext. simpl.
    destruct (q s) as [|inv qs] eqn:Hq; simpl.
    + split; simpl; [by left|]. exists []. trace_simpl. by rewrite Hq.
    + destruct H1 as [|H1]; [done..|].
      match goal with |- fifo_ok (handleSubscribe inv ?s0) =>
        destruct (handleSubscribe_starts inv s0) as (E1 & E2 & E3 & E4 & E5) end.
      split.
      * rewrite E3, E5, maxConcurrency_handleSubscribe. simpl. by right.
      * exists (map retval qs). rewrite E1, E2, E3. clear E1 E2 E3 E4 E5.
        trace_simpl. rewrite <- app_assoc. done.
Qed.

Lemma fifo_ok_on_loaded b f s : fifo_ok s -> fifo_ok (on_loaded b f s).
Proof.
  intros [H1 (rest & H2 & H3)]. unfold on_loaded.
  destruct (take_load b (loading s)) as [[inv rest']|]; [|by split; eauto].
  simpl. destruct (isStopped s) eqn:Hs.
  - split; simpl; [by rewrite Hs|]. exists rest. by rewrite Hs.
  - destruct f as [msg|].
    + split; simpl; [done|]. exists rest. trace_simpl. done.
    + split; simpl; [by rewrite Hs|]. exists rest. trace_simpl. by rewrite Hs.
Qed.

Lemma fifo_ok_moduleProxy c a s : fifo_ok s -> fifo_ok (snd (moduleProxy c a s)).
Proof.
  intros [H1 (rest & H2 & H3)].
  unfold moduleProxy, invocationQueue_onNext, merge_next. simpl.
  destruct (isStopped s) eqn:Hs; simpl.
  - split; simpl; [by rewrite Hs|]. exists (rest ++ [nextRetval s]).
    trace_simpl. rewrite H2, Hs, <- app_assoc. done.
  - specialize (H3 eq_refl). subst rest.
    destruct (Z.ltb_spec (Z.of_nat (activeCount s)) (maxConcurrency s)) as [Hlt|Hge].
    + destruct H1 as [Hq|H1]; [done| |lia].
      match goal with |- fifo_ok (handleSubscribe ?i ?s0) =>
        destruct (handleSubscribe_starts i s0) as (E1 & E2 & E3 & E4 & E5) end.
      split.
      * rewrite E3. simpl. by left.
      * exists []. rewrite E1, E2, E3. clear E1 E2 E3 E4 E5.
        trace_simpl. rewrite Hq in *.
        trace_simpl. by rewrite H2.
    + split; simpl; [by right|].
      exists (map retval (q s) ++ [nextRetval s]). trace_simpl.
      rewrite H2, map_app, <- app_assoc. done.
Qed.

Lemma reap_fifo s : fifo_ok s -> fifo_ok (reap s).
Proof.
  intros [H1 (rest & H2 & H3)]. rewrite reap_spec. split; simpl; [done|].
  exists rest. split; [|done].
  assert (forall (l : list Wnd) t, submissions (map (fun w => (t, ODispose w)) l) = []
                            /\ starts (map (fun w => (t, ODispose w)) l) = []) as Hd.
  { intros l t. induction l as [|w l [IH1 IH2]]; [done|]. simpl. by rewrite IH1, IH2. }
  change (?a :: ?l) with ([a] ++ l).
  unfold submissions, starts in *. rewrite !omap_app.
  destruct (Hd (reverse (freeWindowList s)) (now s)) as [-> ->].
  simpl. by rewrite !app_nil_r.
Qed.

Lemma fifo_ok_tick s : fifo_ok s -> fifo_ok (tick s).
Proof.
  intros H. unfold tick, fire_throttle.
  set (s1 := fire_timeouts _).
  assert (fifo_ok s1) as H1.
  { unfold s1, fire_timeouts. apply foldl_invariant.
    - intros. by apply fifo_ok_on_reply.
    - done. }
  destruct (throttle s1) as [d|]; [|done].
  destruct (d <=? now s1); [|done].
  by apply reap_fifo.
Qed.

Lemma fifo_ok_step s e : fifo_ok s -> fifo_ok (step s e).
Proof.
  destruct e; simpl.
  - apply fifo_ok_moduleProxy.
  - apply fifo_ok_on_loaded.
  - apply fifo_ok_on_reply.
  - apply fifo_ok_tick.
Qed.

(** C4. Whatever the events and their interleaving, the invocations start
    their dispatch in the order they were submitted: the sequence of
    dispatch starts is an initial segment of the sequence of calls, and
    while the pipeline is subscribed the calls not started yet are exactly
    the queue, oldest first. With one slot and three calls A, B, C the
    starts are A, B, C. The order of completion is not tied to it: with
    two slots the second call may settle first. *)
Theorem fifo_dispatch_start path max es :
  let s := run (RendererTaskpoolItem path max) es in
  (exists rest, submissions (trace s) = starts (trace s) ++ rest
     /\ (isStopped s = false -> rest = map retval (q s)))
  /\ (forall oa ob oc,
       starts (trace (run (RendererTaskpoolItem path 1)
         [Invoke ["m"; "A"]%string []; Invoke ["m"; "B"]%string [];
          Invoke ["m"; "C"]%string []; Loaded 0 None;
          Reply 0 oa; Reply 1 ob; Reply 2 oc])) = [0; 1; 2]%nat)
  /\ (let s2 := run (RendererTaskpoolItem path 2)
         [Invoke ["m"; "A"]%string []; Invoke ["m"; "B"]%string [];
          Loaded 0 None; Loaded 1 None;
          Reply 1 (Returned VUndefined); Reply 0 (Returned VUndefined)] in
      submissions (trace s2) = [0; 1]%nat /\ settlements (trace s2) = [1; 0]%nat).
Proof.
  intros s. split_and!.
  - assert (fifo_ok s) as [_ H]; [|done].
    unfold s. apply (run_invariant fifo_ok).
    + intros s0 e. apply fifo_ok_step.
    + split; simpl; [by left|]. by exists [].
  - intros oa ob oc. vm_compute. done.
  - vm_compute. done.
Qed.

(** ** What is sent to the window *)

(** The invocation comes from a call on the proxy: same arguments, same
    [retval], and the chain of the call with its first name replaced by
    [requiredModule]. *)
Definition known (tr : list (Z * Obs)) (inv : Invocation) : Prop :=
  exists t c, (t, OQueue c (args inv) (retval inv)) ∈ tr
              /\ chain inv = "requiredModule"%string :: splice1 c.

(** Every remote call that was sent carries a known invocation. *)
Definition invoked_ok (tr : list (Z * Obs)) : Prop :=
  forall t w timeout c a r,
    (t, OInvoke w timeout c a r) ∈ tr -> known tr (mkInvocation c a r).

Definition prov_ok (s : Pool) : Prop :=
  Forall (known (trace s)) (q s)
  /\ Forall (fun x => known (trace s) (snd x)) (loading s)
  /\ Forall (fun c => known (trace s) (c_inv c)) (running s)
  /\ invoked_ok (trace s).

Lemma known_app tr l inv : known tr inv -> known (tr ++ l) inv.
Proof. intros (t & c & H1 & H2). exists t, c. split; [set_solver|done]. Qed.

Lemma invoked_ok_silent tr l :
  invoked_ok tr ->
  (forall t w timeout c a r, (t, OInvoke w timeout c a r) ∉ l) ->
  invoked_ok (tr ++ l).
Proof.
  intros H Hl t w timeout c a r [Hin|Hin]%elem_of_app.
  - apply known_app. eauto.
  - by apply Hl in Hin.
Qed.

Lemma invoked_ok_invoke tr t w timeout inv :
  invoked_ok tr -> known tr inv ->
  invoked_ok (tr ++ [(t, OInvoke w timeout (chain inv) (args inv) (retval inv))]).
Proof.
  intros H Hk t' w' timeout' c a r [Hin|Hin]%elem_of_app.
  - apply known_app. eauto.
  - apply list_elem_of_singleton in Hin. injection Hin as -> -> -> -> -> ->.
    apply known_app. by destruct inv.
Qed.

Lemma prov_ok_weaken s l :
  prov_ok s ->
  (forall t w timeout c a r, (t, OInvoke w timeout c a r) ∉ l) ->
  prov_ok (set_trace s (trace s ++ l)).
Proof.
  intros (H1 & H2 & H3 & H4) Hl. unfold prov_ok. simpl. split_and!.
  - eapply Forall_impl; [done|]. intros. by apply known_app.
  - eapply Forall_impl; [done|]. intros. by apply known_app.
  - eapply Forall_impl; [done|]. intros. by apply known_app.
  - by apply invoked_ok_silent.
Qed.

Ltac not_invoke :=
  let H := fresh in
  intros ? ? ? ? ? ? H;
  repeat (apply elem_of_cons in H as [H|H]; [discriminate H|]);
  by apply elem_of_nil in H.

Lemma prov_ok_execute w inv s :
  prov_ok s -> known (trace s) inv ->
  prov_ok (executeJavaScriptMethodObservable w inv s).
Proof.
  intros (H1 & H2 & H3 & H4) Hk.
  unfold prov_ok, executeJavaScriptMethodObservable, log, push. simpl. split_and!.
  - eapply Forall_impl; [done|]. intros. by apply known_app.
  - eapply Forall_impl; [done|]. intros. by apply known_app.
  - apply Forall_app. split.
    + eapply Forall_impl; [done|]. intros. by apply known_app.
    + apply Forall_singleton. simpl. by apply known_app.
  - by apply invoked_ok_invoke.
Qed.

Lemma prov_ok_handleSubscribe inv s :
  prov_ok s -> known (trace s) inv -> prov_ok (handleSubscribe inv s).
Proof.
  intros H Hk. unfold handleSubscribe, getOrCreateWindow. simpl.
  destruct (pop (freeWindowList s)) as [[w|] rest].
  - apply prov_ok_execute.
    + apply (prov_ok_weaken s [(now s, OStart (retval inv))]) in H; [|not_invoke].
      exact H.
    + simpl. by apply known_app.
  - apply (prov_ok_weaken s [(now s, OStart (retval inv)); (now s, OSpawn (nextBw s) (retval inv))])
      in H; [|not_invoke].
    destruct H as (H1 & H2 & H3 & H4).
    unfold prov_ok, rendererRequireDirect, log, push. simpl in *.
    rewrite <- app_assoc. simpl. split_and!; [done| |done..].
    apply Forall_app. split; [done|]. apply Forall_singleton. simpl.
    by apply known_app.
Qed.

Lemma prov_ok_on_reply r o s : prov_ok s -> prov_ok (on_reply r o s).
Proof.
  intros H. unfold on_reply.
  destruct (take_call r (running s)) as [[c rest]|] eqn:E; [|done].
  apply take_call_Some in E as (l1 & l2 & E & -> & _).
  assert (prov_ok (set_running s (l1 ++ l2))) as H'.
  { destruct H as (H1 & H2 & H3 & H4). unfold prov_ok. simpl. split_and!; [done..| |done].
    rewrite E in H3. apply Forall_app in H3 as [Ha Hb]. apply Forall_cons in Hb as [_ Hb].
    by apply Forall_app. }
  clear H. simpl. destruct (isStopped s).
  - apply (prov_ok_weaken _ [(now s, OSettle r o)]) in H'; [|not_invoke]. exact H'.
  - unfold merge_inner_completed, subscriber_onNext, log, push. simpl.
    rewrite <- app_assoc. simpl.
    apply (prov_ok_weaken _ [(now s, OSettle r o); (now s, OCompletion (c_wnd c))]) in H';
      [|not_invoke].
    destruct H' as (H1 & H2 & H3 & H4). simpl in *.
    destruct (q s) as [|inv qs] eqn:Hq; simpl.
    + unfold prov_ok. simpl. rewrite Hq. by split_and!.
    + apply Forall_cons in H1 as [Hk H1].
      apply prov_ok_handleSubscribe; [|done]. by split_and!.
Qed.

Lemma prov_ok_on_loaded b f s : prov_ok s -> prov_ok (on_loaded b f s).
Proof.
  intros H. unfold on_loaded.
  destruct (take_load b (loading s)) as [[inv rest]|] eqn:E; [|done].
  apply take_load_Some in E as (l1 & l2 & E & ->).
  destruct H as (H1 & H2 & H3 & H4).
  rewrite E in H2. apply Forall_app in H2 as [Ha Hb]. apply Forall_cons in Hb as [Hk Hb].
  assert (prov_ok (set_loading s (l1 ++ l2))) as H'.
  { unfold prov_ok. simpl. split_and!; [done| |done..]. by apply Forall_app. }
  simpl. destruct (isStopped s); [done|]. destruct f as [msg|].
  - apply (prov_ok_weaken _ [(now s, OThrow (SpawnError msg))]) in H'; [|not_invoke].
    exact H'.
  - by apply prov_ok_execute.
Qed.

Lemma prov_ok_moduleProxy c a s : prov_ok s -> prov_ok (snd (moduleProxy c a s)).
Proof.
  intros H.
  apply (prov_ok_weaken _ [(now s, OQueue c a (nextRetval s))]) in H; [|not_invoke].
  assert (known (trace s ++ [(now s, OQueue c a (nextRetval s))])
            (mkInvocation ("requiredModule"%string :: splice1 c) a (nextRetval s))) as Hk.
  { exists (now s), c. simpl. split; [set_solver|done]. }
  unfold moduleProxy, invocationQueue_onNext, merge_next. simpl.
  destruct (isStopped s); [exact H|]. simpl.
  destruct (_ <? _).
  - apply prov_ok_handleSubscribe; [|done]. exact H.
  - destruct H as (H1 & H2 & H3 & H4). unfold prov_ok, push. simpl in *.
    split_and!; [|done..]. apply Forall_app. split; [done|]. by apply Forall_singleton.
Qed.

Lemma prov_ok_tick s : prov_ok s -> prov_ok (tick s).
Proof.
  intros H. unfold tick, fire_throttle.
  set (s1 := fire_timeouts _).
  assert (prov_ok s1) as H1.
  { unfold s1, fire_timeouts. apply foldl_invariant.
    - intros. by apply prov_ok_on_reply.
    - done. }
  destruct (throttle s1) as [d|]; [|done].
  destruct (d <=? now s1); [|done].
  rewrite reap_spec.
  apply (prov_ok_weaken (set_throttle (set_freeWindowList s1 []) None)); [done|].
  intros t w timeout c a r [Hin|Hin]%elem_of_cons; [done|].
  apply list_elem_of_fmap in Hin as (w' & Hin & _). done.
Qed.

Lemma prov_ok_step s e : prov_ok s -> prov_ok (step s e).
Proof.
  destruct e; simpl.
  - apply prov_ok_moduleProxy.
  - apply prov_ok_on_loaded.
  - apply prov_ok_on_reply.
  - apply prov_ok_tick.
Qed.

Lemma prov_ok_run path max es : prov_ok (run (RendererTaskpoolItem path max) es).
Proof.
  apply (run_invariant prov_ok).
  - intros s e. apply prov_ok_step.
  - unfold prov_ok. simpl. split_and!; [by constructor..|].
    intros t w timeout c a r Hin. by apply elem_of_nil in Hin.
Qed.

(** Only a call on the proxy creates a [retval]. *)
Definition calls_kept (s s' : Pool) : Prop :=
  submissions (trace s') = submissions (trace s) /\ nextRetval s' = nextRetval s.

Lemma calls_kept_on_reply r o s : calls_kept s (on_reply r o s).
Proof.
  unfold calls_kept, on_reply.
  destruct (take_call r (running s)) as [[c rest]|]; [|done].
  simpl. destruct (isStopped s); [by trace_simpl|].
  unfold merge_inner_completed, subscriber_onNext. simpl.
  destruct (q s) as [|inv qs]; simpl; [by trace_simpl|].
  unfold handleSubscribe, getOrCreateWindow, push. simpl.
  rewrite pop_snoc. by trace_simpl.
Qed.

Lemma calls_kept_on_loaded b f s : calls_kept s (on_loaded b f s).
Proof.
  unfold calls_kept, on_loaded.
  destruct (take_load b (loading s)) as [[inv rest]|]; [|done].
  simpl. destruct (isStopped s); [done|]. destruct f; by trace_simpl.
Qed.

Lemma submissions_disposals (l : list Wnd) t :
  submissions (map (fun w => (t, ODispose w)) l) = [].
Proof. by induction l. Qed.

Lemma calls_kept_tick s : calls_kept s (tick s).
Proof.
  unfold tick, fire_throttle. set (s1 := fire_timeouts _).
  assert (calls_kept s s1) as [H1 H2].
  { unfold s1, fire_timeouts. apply (foldl_invariant (calls_kept s)); [|done].
    intros a r [Ha1 Ha2]. destruct (calls_kept_on_reply r (Failed TimeoutError) a) as [E1 E2].
    split; congruence. }
  destruct (throttle s1) as [d|]; [|done].
  destruct (d <=? now s1); [|done].
  rewrite reap_spec. split; [|done]. simpl.
  change (?a :: ?l) with ([a] ++ l). unfold submissions in *.
  rewrite !omap_app. fold (submissions (map (λ w : Wnd, (now s1, ODispose w)) (reverse (freeWindowList s1)))).
  rewrite submissions_disposals. simpl. by rewrite app_nil_r.
Qed.

Lemma submissions_moduleProxy c a s :
  submissions (trace (snd (moduleProxy c a s))) = submissions (trace s) ++ [nextRetval s]
  /\ nextRetval (snd (moduleProxy c a s)) = S (nextRetval s).
Proof.
  unfold moduleProxy, invocationQueue_onNext, merge_next. simpl.
  destruct (isStopped s); [by trace_simpl|]. simpl.
  destruct (_ <? _); [|by trace_simpl].
  unfold handleSubscribe, getOrCreateWindow. simpl.
  destruct (pop (freeWindowList s)) as [[w|] rest']; by trace_simpl.
Qed.

(** The [retval]s of the calls are pairwise distinct. *)
Definition fresh_ok (s : Pool) : Prop :=
  NoDup (submissions (trace s))
  /\ Forall (fun r => (r < nextRetval s)%nat) (submissions (trace s)).

Lemma fresh_ok_step s e : fresh_ok s -> fresh_ok (step s e).
Proof.
  intros [H1 H2].
  assert (forall s', calls_kept s s' -> fresh_ok s') as Hk.
  { intros s' [E1 E2]. unfold fresh_ok. by rewrite E1, E2. }
  destruct e; unfold step.
  - destruct (submissions_moduleProxy methodChain a s) as [E1 E2].
    unfold fresh_ok. rewrite E1, E2. split.
    + apply NoDup_app. split_and!; [done| |apply NoDup_singleton].
      intros x Hx ->%list_elem_of_singleton.
      rewrite Forall_forall in H2. apply H2 in Hx. lia.
    + apply Forall_app. split.
      * eapply Forall_impl; [done|]. simpl. lia.
      * apply Forall_singleton. lia.
  - apply Hk, calls_kept_on_loaded.
  - apply Hk, calls_kept_on_reply.
  - apply Hk, calls_kept_tick.
Qed.

Lemma fresh_ok_run path max es : fresh_ok (run (RendererTaskpoolItem path max) es).
Proof.
  apply (run_invariant fresh_ok).
  - intros s e. apply fresh_ok_step.
  - split; simpl; constructor.
Qed.

Lemma submissions_elem tr t c a r :
  (t, OQueue c a r) ∈ tr -> r ∈ submissions tr.
Proof.
  intros H. unfold submissions. apply list_elem_of_omap.
  exists (t, OQueue c a r). done.
Qed.

(** Two calls recorded with the same [retval] are the same call. *)
Lemma queue_unique tr t1 c1 a1 t2 c2 a2 r :
  NoDup (submissions tr) ->
  (t1, OQueue c1 a1 r) ∈ tr -> (t2, OQueue c2 a2 r) ∈ tr ->
  c1 = c2 /\ a1 = a2.
Proof.
  induction tr as [|[t o] tr IH]; intros Hnd H1 H2; [by apply elem_of_nil in H1|].
  apply elem_of_cons in H1 as [H1|H1]; apply elem_of_cons in H2 as [H2|H2].
  - split; congruence.
  - injection H1 as <- <-. unfold submissions in Hnd. simpl in Hnd.
    apply NoDup_cons in Hnd as [Hn _].
    destruct Hn. by eapply submissions_elem.
  - injection H2 as <- <-. unfold submissions in Hnd. simpl in Hnd.
    apply NoDup_cons in Hnd as [Hn _].
    destruct Hn. by eapply submissions_elem.
  - apply IH; [|done..]. unfold submissions in Hnd. simpl in Hnd.
    destruct o; simpl in Hnd; try done. by apply NoDup_cons in Hnd as [_ ?].
Qed.

(** Every invocation that waits in the queue and every remote call that
    was sent to a window comes from one call on the proxy, the only one
    with its [retval]: it carries the arguments of that call unchanged and
    the chain [requiredModule] followed by the chain of the call without
    its first element. *)
Lemma chain_provenance path max es :
  let s := run (RendererTaskpoolItem path max) es in
  (forall t w timeout c a r,
     (t, OInvoke w timeout c a r) ∈ trace s ->
     exists t0 c0,
       (t0, OQueue c0 a r) ∈ trace s
       /\ c = "requiredModule"%string :: drop 1 c0
       /\ forall t1 c1 a1, (t1, OQueue c1 a1 r) ∈ trace s -> c1 = c0 /\ a1 = a)
  /\ (forall inv, inv ∈ q s ->
     exists t0 c0,
       (t0, OQueue c0 (args inv) (retval inv)) ∈ trace s
       /\ chain inv = "requiredModule"%string :: drop 1 c0).
Proof.
  intros s.
  destruct (prov_ok_run path max es) as (H1 & _ & _ & H4).
  destruct (fresh_ok_run path max es) as [Hnd _].
  fold s in H1, H4, Hnd. split.
  - intros t w timeout c a r Hin.
    destruct (H4 _ _ _ _ _ _ Hin) as (t0 & c0 & Hq & Hc). simpl in *.
    exists t0, c0. split_and!; [done..|].
    intros t1 c1 a1 Hq1. by eapply queue_unique.
  - intros inv Hin. rewrite Forall_forall in H1.
    destruct (H1 _ Hin) as (t0 & c0 & Hq & Hc). by exists t0, c0.
Qed.

(** The call [mod.sub.method(7, "x")] captured as
    [["__removeme__"; "sub"; "method"]] reaches the window as
    [requiredModule.sub.method(7, "x")]. *)
Example chain_rewritten_run :
  let s := run (requireTaskPool "m" None)
    [Invoke ["__removeme__"; "sub"; "method"]%string [VNum 7; VStr "x"]; Loaded 0 None] in
  trace s =
    [(0, OQueue ["__removeme__"; "sub"; "method"]%string [VNum 7; VStr "x"] 0%nat);
     (0, OStart 0%nat); (0, OSpawn 0%nat 0%nat);
     (0, OInvoke (mkWnd 0) 240000 ["requiredModule"; "sub"; "method"]%string
           [VNum 7; VStr "x"] 0%nat)].
Proof. vm_compute. done. Qed.

(** ** Reuse before spawn *)

Lemma nextBw_on_reply r o s : nextBw (on_reply r o s) = nextBw s.
Proof.
  unfold on_reply. destruct (take_call r (running s)) as [[c rest]|]; [|done].
  simpl. destruct (isStopped s); [done|].
  unfold merge_inner_completed, subscriber_onNext. simpl.
  destruct (q s) as [|inv qs]; [done|]. simpl.
  unfold handleSubscribe, getOrCreateWindow, push. simpl.
  by rewrite pop_snoc.
Qed.

Lemma nextBw_tick s : nextBw (tick s) = nextBw s.
Proof.
  unfold tick, fire_throttle. set (s1 := fire_timeouts _).
  assert (nextBw s1 = nextBw s) as H1.
  { unfold s1, fire_timeouts.
    apply (foldl_invariant (fun s' => nextBw s' = nextBw s)); [|done].
    intros a r H. by rewrite nextBw_on_reply. }
  destruct (throttle s1); [|done]. destruct (_ <=? _); [|done].
  by rewrite reap_spec.
Qed.

(** C5. When the merge starts an invocation and the stack of free windows
    is not empty, the window on top, the last one pushed, serves it and no
    window is created; a window is created only when the stack is empty.
    In particular the window a completion has just pushed is the one the
    next start takes, and over a whole step a window is created only by a
    call on the proxy that finds the stack empty. *)
Theorem free_window_preferred inv s :
  (forall l w, freeWindowList s = l ++ [w] ->
     freeWindowList (getOrCreateWindow inv s) = l
     /\ running (getOrCreateWindow inv s)
        = running s ++ [mkCall w invokeTimeoutMs inv (now s)]
     /\ loading (getOrCreateWindow inv s) = loading s
     /\ nextBw (getOrCreateWindow inv s) = nextBw s)
  /\ (freeWindowList s = [] ->
     loading (getOrCreateWindow inv s) = loading s ++ [(nextBw s, inv)]
     /\ nextBw (getOrCreateWindow inv s) = S (nextBw s)
     /\ running (getOrCreateWindow inv s) = running s
     /\ freeWindowList (getOrCreateWindow inv s) = [])
  /\ (forall w,
     running (getOrCreateWindow inv (subscriber_onNext w s))
       = running s ++ [mkCall w invokeTimeoutMs inv (now s)]
     /\ freeWindowList (getOrCreateWindow inv (subscriber_onNext w s))
       = freeWindowList s)
  /\ (forall e,
     nextBw (step s e) = nextBw s
     \/ (nextBw (step s e) = S (nextBw s) /\ freeWindowList s = []
         /\ exists c a, e = Invoke c a)).
Proof.
  split_and!.
  - intros l w E. unfold getOrCreateWindow. rewrite E, pop_snoc. done.
  - intros E. unfold getOrCreateWindow. rewrite E. done.
  - intros w. unfold getOrCreateWindow, subscriber_onNext, push. simpl.
    rewrite pop_snoc. done.
  - intros [c a|b f|r o|]; simpl.
    + unfold invocationQueue_onNext, merge_next. simpl.
      destruct (isStopped s); [by left|]. simpl.
      destruct (_ <? _); [|by left].
      unfold handleSubscribe, getOrCreateWindow. simpl.
      destruct (pop_spec (freeWindowList s)) as [E|l w E]; [|by left].
      right. simpl. eauto.
    + left. unfold on_loaded.
      destruct (take_load b (loading s)) as [[i rest]|]; [|done].
      simpl. destruct (isStopped s); [done|]. by destruct f.
    + left. apply nextBw_on_reply.
    + left. apply nextBw_tick.
Qed.

(** One slot, two calls: the window created for the first call serves the
    second, and no second window is created. *)
Example reuse_run :
  let s := run (requireTaskPool "m" (Some 1))
    [Invoke ["m"; "f"]%string []; Invoke ["m"; "g"]%string [];
     Loaded 0 None; Reply 0 (Returned (VNum 1))] in
  map c_wnd (running s) = [mkWnd 0] /\ nextBw s = 1%nat /\ loading s = [].
Proof. vm_compute. done. Qed.

(** ** Configuration *)

Definition ticks (n : nat) : list Event := replicate n Tick.

(** The defaults: [maxConcurrency] is 4 when the argument of
    [requireTaskPool] is omitted and the given number otherwise, and the
    quiet interval of the reaper is 5000 milliseconds: with the default, a
    fifth call waits for a slot, and the free window is still there 4999
    milliseconds after the last completion and burnt at 5000. *)
Lemma configuration_defaults path :
  maxConcurrency (requireTaskPool path None) = 4
  /\ (forall n, maxConcurrency (requireTaskPool path (Some n)) = n)
  /\ (forall n es, maxConcurrency (run (requireTaskPool path n) es)
                   = maxConcurrency (requireTaskPool path n))
  /\ idleReapIntervalMs = 5000
  /\ (let s := run (requireTaskPool path None)
                 (replicate 5 (Invoke ["m"; "f"]%string [])) in
      length (loading s) = 4%nat /\ length (q s) = 1%nat)
  /\ (let s := run (requireTaskPool path None)
                 [Invoke ["m"; "f"]%string []; Loaded 0 None;
                  Reply 0 (Returned VUndefined)] in
      throttle s = Some 5000
      /\ freeWindowList (run s (ticks 4999)) = [mkWnd 0]
      /\ freeWindowList (run s (ticks 5000)) = []).
Proof.
  split_and!; [done|done| |done|by vm_compute|by vm_compute].
  intros n es. apply maxConcurrency_run.
Qed.

(** ** Failures of the remote call *)

(** C2, as the code has it. While the pipeline is subscribed, the answer
    of a remote call, whatever it is (a result, an error of the invoked
    method, a broken transport, a timeout), settles the future of the
    invocation with it and puts the window that served it back on the
    stack of free windows, where the oldest queued invocation, if there is
    one, takes it at once; no window is disposed. *)
Theorem worker_returned s r o c rest :
  isStopped s = false ->
  take_call r (running s) = Some (c, rest) ->
  retvals (step s (Reply r o)) !! r = Some (settle o)
  /\ (exists l, trace (step s (Reply r o))
        = trace s ++ (now s, OSettle r o) :: (now s, OCompletion (c_wnd c)) :: l
        /\ forall t w, (t, ODispose w) ∉ l)
  /\ (q s = [] ->
        freeWindowList (step s (Reply r o)) = freeWindowList s ++ [c_wnd c]
        /\ running (step s (Reply r o)) = rest)
  /\ (forall inv qs, q s = inv :: qs ->
        freeWindowList (step s (Reply r o)) = freeWindowList s
        /\ running (step s (Reply r o))
           = rest ++ [mkCall (c_wnd c) invokeTimeoutMs inv (now s)]).
Proof.
  intros Hs E. simpl. unfold on_reply. rewrite E. simpl. rewrite Hs.
  unfold merge_inner_completed, subscriber_onNext, push. simpl.
  destruct (q s) as [|inv qs] eqn:Hq; simpl.
  - split_and!; [apply lookup_insert_eq| |done|done].
    exists []. rewrite <- app_assoc. split; [done|]. intros t w H. by apply elem_of_nil in H.
  - unfold handleSubscribe, getOrCreateWindow. simpl. rewrite pop_snoc.
    unfold push. simpl.
    split_and!; [apply lookup_insert_eq| |done|].
    + eexists. rewrite <- !app_assoc. simpl. split; [done|].
      intros t w H. repeat (apply elem_of_cons in H as [H|H]; [discriminate H|]).
      by apply elem_of_nil in H.
    + intros inv' qs' [= <- <-]. done.
Qed.

Lemma worker_returned_witness :
  let s := run (requireTaskPool "m" None) [Invoke ["m"; "f"]%string []; Loaded 0 None] in
  let c := mkCall (mkWnd 0) 240000 (mkInvocation ["requiredModule"; "f"]%string [] 0) 0 in
  let o := Failed (InvocationError "no such method") in
  isStopped s = false /\ take_call 0 (running s) = Some (c, [])
  /\ retvals (step s (Reply 0 o)) !! 0%nat = Some (settle o)
  /\ (exists l, trace (step s (Reply 0 o))
        = trace s ++ (now s, OSettle 0 o) :: (now s, OCompletion (c_wnd c)) :: l
        /\ forall t w, (t, ODispose w) ∉ l)
  /\ (q s = [] ->
        freeWindowList (step s (Reply 0 o)) = freeWindowList s ++ [c_wnd c]
        /\ running (step s (Reply 0 o)) = [])
  /\ (forall inv qs, q s = inv :: qs ->
        freeWindowList (step s (Reply 0 o)) = freeWindowList s
        /\ running (step s (Reply 0 o))
           = [] ++ [mkCall (c_wnd c) invokeTimeoutMs inv (now s)]).
Proof.
  split; [reflexivity|]. split; [reflexivity|].
  apply (worker_returned
           (run (requireTaskPool "m" None) [Invoke ["m"; "f"]%string []; Loaded 0 None])
           0 (Failed (InvocationError "no such method"))
           (mkCall (mkWnd 0) 240000 (mkInvocation ["requiredModule"; "f"]%string [] 0) 0) []);
    reflexivity.
Defined.

(** A remote call that ends with a broken transport rejects the future
    with that error, and the window is back on the stack of free windows
    all the same: it is not discarded. *)
Lemma fatal_fault_keeps_worker :
  let s := run (requireTaskPool "m" None)
    [Invoke ["m"; "f"]%string []; Loaded 0 None;
     Reply 0 (Failed (FatalWorkerError "renderer crashed"))] in
  retvals s !! 0%nat = Some (Rejected (FatalWorkerError "renderer crashed"))
  /\ freeWindowList s = [mkWnd 0]
  /\ trace s =
     [(0, OQueue ["m"; "f"]%string [] 0%nat); (0, OStart 0%nat); (0, OSpawn 0%nat 0%nat);
      (0, OInvoke (mkWnd 0) 240000 ["requiredModule"; "f"]%string [] 0%nat);
      (0, OSettle 0%nat (Failed (FatalWorkerError "renderer crashed")));
      (0, OCompletion (mkWnd 0))].
Proof. vm_compute. done. Qed.
(** ** The shapes a step can take *)

(** The two ways the start of an invocation can go: the window on top of
    the stack serves it, or a window is created. *)
Lemma handleSubscribe_cases inv s :
  (exists l w, freeWindowList s = l ++ [w]
     /\ handleSubscribe inv s =
        set_running
          (set_trace (set_freeWindowList s l)
             (trace s ++ [(now s, OStart (retval inv));
                          (now s, OInvoke w invokeTimeoutMs (chain inv) (args inv) (retval inv))]))
          (running s ++ [mkCall w invokeTimeoutMs inv (now s)]))
  \/ (freeWindowList s = []
      /\ handleSubscribe inv s =
         set_loading
           (set_nextBw
              (set_trace s (trace s ++ [(now s, OStart (retval inv));
                                        (now s, OSpawn (nextBw s) (retval inv))]))
              (S (nextBw s)))
           (loading s ++ [(nextBw s, inv)])).
Proof.
  unfold handleSubscribe, getOrCreateWindow. simpl.
  destruct (pop_spec (freeWindowList s)) as [E|l w E].
  - right. split; [done|].
    unfold rendererRequireDirect, log, push. simpl. by rewrite <- app_assoc.
  - left. exists l, w. split; [done|].
    unfold executeJavaScriptMethodObservable, log, push. simpl. by rewrite <- app_assoc.
Qed.

(** The state once the answer of a call has settled its [retval]. *)
Definition settled (r : nat) (o : outcome) (rest : list Call) (s : Pool) : Pool :=
  set_trace (set_retvals (set_running s rest) (<[r := settle o]> (retvals s)))
    (trace s ++ [(now s, OSettle r o)]).

(** The state once the window of that call is back on the stack. *)
Definition completed (w : Wnd) (s : Pool) : Pool :=
  set_throttle
    (set_trace (set_freeWindowList s (freeWindowList s ++ [w]))
       (trace s ++ [(now s, OCompletion w)]))
    (Some (now s + idleReapIntervalMs)).

Lemma subscriber_onNext_completed w s : subscriber_onNext w s = completed w s.
Proof. done. Qed.

Inductive on_reply_view (r : nat) (o : outcome) (s : Pool) : Pool -> Prop :=
| reply_unknown :
    take_call r (running s) = None -> on_reply_view r o s s
| reply_stopped c l1 l2 :
    running s = l1 ++ c :: l2 -> call_id c = r -> r ∉ map call_id l1 ->
    isStopped s = true ->
    on_reply_view r o s (settled r o (l1 ++ l2) s)
| reply_idle c l1 l2 :
    running s = l1 ++ c :: l2 -> call_id c = r -> r ∉ map call_id l1 ->
    isStopped s = false -> q s = [] ->
    on_reply_view r o s
      (set_activeCount (completed (c_wnd c) (settled r o (l1 ++ l2) s))
         (pred (activeCount s)))
| reply_next c l1 l2 inv qs :
    running s = l1 ++ c :: l2 -> call_id c = r -> r ∉ map call_id l1 ->
    isStopped s = false -> q s = inv :: qs ->
    on_reply_view r o s
      (handleSubscribe inv
         (set_q (completed (c_wnd c) (settled r o (l1 ++ l2) s)) qs)).

Lemma on_reply_cases r o s : on_reply_view r o s (on_reply r o s).
Proof.
  unfold on_reply.
  destruct (take_call r (running s)) as [[c rest]|] eqn:E; [|by constructor].
  apply take_call_Some in E as (l1 & l2 & E & -> & Hc & Hn).
  simpl. destruct (isStopped s) eqn:Hs.
  - exact (reply_stopped r o s c l1 l2 E Hc Hn Hs).
  - unfold merge_inner_completed. rewrite subscriber_onNext_completed.
    simpl. destruct (q s) as [|inv qs] eqn:Hq; simpl.
    + exact (reply_idle r o s c l1 l2 E Hc Hn Hs Hq).
    + exact (reply_next r o s c l1 l2 inv qs E Hc Hn Hs Hq).
Qed.

Inductive on_loaded_view (b : nat) (f : option string) (s : Pool) : Pool -> Prop :=
| loaded_unknown :
    take_load b (loading s) = None -> on_loaded_view b f s s
| loaded_stopped inv l1 l2 :
    loading s = l1 ++ (b, inv) :: l2 -> isStopped s = true ->
    on_loaded_view b f s (set_loading s (l1 ++ l2))
| loaded_failed inv l1 l2 msg :
    loading s = l1 ++ (b, inv) :: l2 -> isStopped s = false -> f = Some msg ->
    on_loaded_view b f s
      (set_trace (set_isStopped (set_loading s (l1 ++ l2)) true)
         (trace s ++ [(now s, OThrow (SpawnError msg))]))
| loaded_ready inv l1 l2 :
    loading s = l1 ++ (b, inv) :: l2 -> isStopped s = false -> f = None ->
    on_loaded_view b f s
      (set_running
         (set_trace (set_loading s (l1 ++ l2))
            (trace s ++ [(now s, OInvoke (mkWnd b) invokeTimeoutMs (chain inv)
                                   (args inv) (retval inv))]))
         (running s ++ [mkCall (mkWnd b) invokeTimeoutMs inv (now s)])).

Lemma on_loaded_cases b f s : on_loaded_view b f s (on_loaded b f s).
Proof.
  unfold on_loaded.
  destruct (take_load b (loading s)) as [[inv rest]|] eqn:E; [|by constructor].
  apply take_load_Some in E as (l1 & l2 & E & ->).
  simpl. destruct (isStopped s) eqn:Hs.
  - exact (loaded_stopped b f s inv l1 l2 E Hs).
  - destruct f as [msg|].
    + exact (loaded_failed b (Some msg) s inv l1 l2 msg E Hs eq_refl).
    + exact (loaded_ready b None s inv l1 l2 E Hs eq_refl).
Qed.

Inductive moduleProxy_view (c : list string) (a : list value) (s : Pool)
    : Pool -> Prop :=
| proxy_stopped :
    isStopped s = true ->
    moduleProxy_view c a s
      (set_nextRetval
         (set_retvals (set_trace s (trace s ++ [(now s, OQueue c a (nextRetval s))]))
            (<[nextRetval s := Pending]> (retvals s)))
         (S (nextRetval s)))
| proxy_start :
    isStopped s = false -> Z.of_nat (activeCount s) < maxConcurrency s ->
    moduleProxy_view c a s
      (handleSubscribe
         (mkInvocation ("requiredModule"%string :: splice1 c) a (nextRetval s))
         (set_activeCount
            (set_nextRetval
               (set_retvals
                  (set_trace s (trace s ++ [(now s, OQueue c a (nextRetval s))]))
                  (<[nextRetval s := Pending]> (retvals s)))
               (S (nextRetval s)))
            (S (activeCount s))))
| proxy_queue :
    isStopped s = false -> maxConcurrency s <= Z.of_nat (activeCount s) ->
    moduleProxy_view c a s
      (set_q
         (set_nextRetval
            (set_retvals
               (set_trace s (trace s ++ [(now s, OQueue c a (nextRetval s))]))
               (<[nextRetval s := Pending]> (retvals s)))
            (S (nextRetval s)))
         (q s ++ [mkInvocation ("requiredModule"%string :: splice1 c) a (nextRetval s)])).

Lemma moduleProxy_cases c a s : moduleProxy_view c a s (snd (moduleProxy c a s)).
Proof.
  unfold moduleProxy, invocationQueue_onNext, merge_next. simpl.
  destruct (isStopped s) eqn:Hs; simpl.
  - exact (proxy_stopped c a s Hs).
  - destruct (Z.ltb_spec (Z.of_nat (activeCount s)) (maxConcurrency s)) as [H|H].
    + exact (proxy_start c a s Hs H).
    + exact (proxy_queue c a s Hs H).
Qed.

(** A tick is the clock advancing, then some calls timing out, then
    perhaps the reaper. *)
Lemma tick_invariant (P : Pool -> Prop) s :
  P (set_now s (now s + 1)) ->
  (forall r s', P s' -> P (on_reply r (Failed TimeoutError) s')) ->
  (forall s', P s' -> P (reap s')) ->
  P (tick s).
Proof.
  intros H0 Hr Hb. unfold tick, fire_throttle.
  set (s1 := fire_timeouts _).
  assert (P s1) as H1.
  { unfold s1, fire_timeouts. apply foldl_invariant; [|done].
    intros a b Ha. by apply Hr. }
  destruct (throttle s1) as [d|]; [|done].
  destruct (d <=? now s1); [|done]. by apply Hb.
Qed.

(** ** Who holds a [retval] *)

(** The [retval]s that were settled, and those of the invocations that are
    running, loading or queued. *)
Definition owners (s : Pool) : list nat :=
  settlements (trace s) ++ map call_id (running s)
    ++ map (fun x => retval (snd x)) (loading s) ++ map retval (q s).

(** No [retval] is held twice, and every one comes from a call. *)
Definition lin_ok (s : Pool) : Prop :=
  NoDup (owners s) /\ forall r, r ∈ owners s -> (r < nextRetval s)%nat.

Ltac perm_mid :=
  rewrite <- ?app_assoc; simpl;
  rewrite <- ?app_assoc, <- ?Permutation_middle, ?app_nil_r; try done.

Lemma settlements_app tr1 tr2 :
  settlements (tr1 ++ tr2) = settlements tr1 ++ settlements tr2.
Proof. unfold settlements. apply omap_app. Qed.

Lemma settlements_disposals (l : list Wnd) t :
  settlements (map (fun w => (t, ODispose w)) l) = [].
Proof. by induction l. Qed.

Lemma owners_handleSubscribe inv s :
  owners (handleSubscribe inv s) ≡ₚ retval inv :: owners s.
Proof.
  destruct (handleSubscribe_cases inv s) as [(l & w & E & ->)|[E ->]];
    unfold owners; simpl; rewrite settlements_app, map_app; simpl;
    rewrite app_nil_r.
  - rewrite <- !app_assoc. simpl. rewrite <- !Permutation_middle. done.
  - rewrite <- !app_assoc. simpl. rewrite <- !Permutation_middle. done.
Qed.

Lemma nextRetval_handleSubscribe inv s :
  nextRetval (handleSubscribe inv s) = nextRetval s.
Proof. by destruct (handleSubscribe_cases inv s) as [(l & w & E & ->)|[E ->]]. Qed.

Lemma owners_on_reply r o s : owners (on_reply r o s) ≡ₚ owners s.
Proof.
  destruct (on_reply_cases r o s) as
    [H|c l1 l2 E Hc Hn Hs|c l1 l2 E Hc Hn Hs Hq|c l1 l2 inv qs E Hc Hn Hs Hq];
    [done|..]; rewrite ?owners_handleSubscribe;
    unfold owners; simpl; rewrite E, ?Hq, ?settlements_app, !map_app; simpl;
    rewrite ?app_nil_r, Hc, <- !app_assoc; simpl;
    rewrite <- ?Permutation_middle; try done.
  apply perm_swap.
Qed.

Lemma nextRetval_on_reply r o s : nextRetval (on_reply r o s) = nextRetval s.
Proof. apply calls_kept_on_reply. Qed.

Lemma lin_ok_perm s s' d :
  owners s ≡ₚ d ++ owners s' -> (nextRetval s <= nextRetval s')%nat ->
  lin_ok s -> lin_ok s'.
Proof.
  intros Hp Hn [H1 H2]. split.
  - rewrite Hp in H1. by apply NoDup_app in H1 as (_ & _ & ?).
  - intros r Hr. assert (r ∈ owners s) as Hin.
    { rewrite Hp. apply elem_of_app. by right. }
    apply H2 in Hin. lia.
Qed.

Lemma lin_ok_on_reply r o s : lin_ok s -> lin_ok (on_reply r o s).
Proof.
  apply (lin_ok_perm _ _ []).
  - simpl. by rewrite owners_on_reply.
  - by rewrite nextRetval_on_reply.
Qed.

Lemma lin_ok_on_loaded b f s : lin_ok s -> lin_ok (on_loaded b f s).
Proof.
  destruct (on_loaded_cases b f s) as
    [H|inv l1 l2 E Hs|inv l1 l2 msg E Hs Hf|inv l1 l2 E Hs Hf]; [done|..].
  - apply (lin_ok_perm _ _ [retval inv]); [|done].
    unfold owners. simpl. rewrite E, !map_app. perm_mid.
  - apply (lin_ok_perm _ _ [retval inv]); [|done].
    unfold owners. simpl. rewrite E, settlements_app, !map_app. simpl.
    rewrite app_nil_r. perm_mid.
  - apply (lin_ok_perm _ _ []); [|done].
    unfold owners. simpl. rewrite E, settlements_app, !map_app. simpl.
    rewrite app_nil_r. perm_mid.
Qed.

Lemma lin_ok_fresh s r l :
  lin_ok s -> nextRetval s :: owners s ≡ₚ owners r ++ l ->
  nextRetval r = S (nextRetval s) -> lin_ok r.
Proof.
  intros [H1 H2] Hp Hn. split.
  - assert (NoDup (owners r ++ l)) as Hnd.
    { rewrite <- Hp. apply NoDup_cons. split; [|done].
      intros Hin. apply H2 in Hin. lia. }
    by apply NoDup_app in Hnd as (? & _ & _).
  - intros x Hx. rewrite Hn.
    assert (x ∈ nextRetval s :: owners s) as Hin.
    { rewrite Hp. apply elem_of_app. by left. }
    apply elem_of_cons in Hin as [->|Hin]; [lia|]. apply H2 in Hin. lia.
Qed.

Lemma lin_ok_moduleProxy c a s : lin_ok s -> lin_ok (snd (moduleProxy c a s)).
Proof.
  intros H.
  destruct (moduleProxy_cases c a s) as [Hs|Hs Hlt|Hs Hge].
  - apply (lin_ok_fresh s _ [nextRetval s]); [done| |done].
    unfold owners. simpl. rewrite settlements_app. simpl.
    rewrite app_nil_r. perm_mid.
  - apply (lin_ok_fresh s _ []); [done| |by rewrite nextRetval_handleSubscribe].
    rewrite app_nil_r, owners_handleSubscribe. simpl.
    unfold owners. simpl. rewrite settlements_app. simpl. by rewrite app_nil_r.
  - apply (lin_ok_fresh s _ []); [done| |done].
    unfold owners. simpl. rewrite settlements_app, map_app. simpl.
    rewrite !app_nil_r. perm_mid.
Qed.

Lemma lin_ok_reap s : lin_ok s -> lin_ok (reap s).
Proof.
  rewrite reap_spec. apply (lin_ok_perm _ _ []); [|done].
  unfold owners. simpl. rewrite settlements_app. simpl.
  by rewrite settlements_disposals, app_nil_r.
Qed.

Lemma lin_ok_step s e : lin_ok s -> lin_ok (step s e).
Proof.
  destruct e as [c a|b f|r o|]; unfold step.
  - apply lin_ok_moduleProxy.
  - apply lin_ok_on_loaded.
  - apply lin_ok_on_reply.
  - intros H. apply tick_invariant.
    + exact H.
    + intros. by apply lin_ok_on_reply.
    + intros. by apply lin_ok_reap.
Qed.

Lemma lin_ok_run path max es : lin_ok (run (RendererTaskpoolItem path max) es).
Proof.
  apply (run_invariant lin_ok).
  - intros s e. apply lin_ok_step.
  - split; [constructor|]. intros r Hr. by apply elem_of_nil in Hr.
Qed.
(** ** A window that fails to load *)

(** The pipeline after the load of the first window failed: the merge is
    disposed, nothing runs or loads, no window is free, and every [retval]
    created so far is pending. *)
Definition poisoned (msg : string) (s : Pool) : Prop :=
  isStopped s = true /\ running s = [] /\ loading s = []
  /\ freeWindowList s = []
  /\ (0, OThrow (SpawnError msg)) ∈ trace s
  /\ starts (trace s) = [0%nat]
  /\ settlements (trace s) = []
  /\ (0 < nextRetval s)%nat
  /\ forall r, (r < nextRetval s)%nat -> retvals s !! r = Some Pending.

Lemma starts_app tr1 tr2 : starts (tr1 ++ tr2) = starts tr1 ++ starts tr2.
Proof. unfold starts. apply omap_app. Qed.

Lemma starts_disposals (l : list Wnd) t :
  starts (map (fun w => (t, ODispose w)) l) = [].
Proof. by induction l. Qed.

Lemma poisoned_step msg s e : poisoned msg s -> poisoned msg (step s e).
Proof.
  intros (Hs & Hr & Hl & Hf & Ht & Hst & Hse & Hn & Hp).
  assert (forall r o s', poisoned msg s' -> on_reply r o s' = s') as Hreply.
  { intros r o s' (_ & Hr' & _). unfold on_reply. by rewrite Hr'. }
  destruct e as [c a|b f|r o|]; unfold step.
  - destruct (moduleProxy_cases c a s) as [_|Hs'|Hs']; [|congruence..].
    unfold poisoned. simpl. rewrite starts_app, settlements_app, Hst, Hse. simpl.
    split_and!; [done..|set_solver|done|done|lia|].
    intros r Hlt. destruct (decide (r = nextRetval s)) as [->|Hne].
    + apply lookup_insert_eq.
    + rewrite lookup_insert_ne by done. apply Hp. lia.
  - unfold on_loaded. rewrite Hl. simpl. by split_and!.
  - rewrite Hreply; by split_and!.
  - apply tick_invariant.
    + by split_and!.
    + intros r s' H'. by rewrite Hreply.
    + intros s' (Hs' & Hr' & Hl' & Hf' & Ht' & Hst' & Hse' & Hn' & Hp').
      rewrite reap_spec. unfold poisoned. simpl. rewrite Hf'. simpl.
      change (?x :: nil) with ([x]).
      rewrite starts_app, settlements_app, Hst', Hse'. simpl.
      split_and!; [done..|set_solver|done|done|done|done].
Qed.

Lemma poisoned_first path max c a msg :
  0 < max ->
  poisoned msg (run (RendererTaskpoolItem path max) [Invoke c a; Loaded 0 (Some msg)]).
Proof.
  intros Hmax. unfold run, RendererTaskpoolItem. simpl.
  unfold moduleProxy, invocationQueue_onNext, merge_next. simpl.
  assert ((Z.of_nat 0 <? max) = true) as -> by (apply Z.ltb_lt; simpl; lia).
  unfold poisoned. simpl. split_and!; [done..|set_solver|done|done|lia|].
  intros r Hr. assert (r = 0%nat) as -> by lia. done.
Qed.

Lemma poisoned_run path max c a msg es :
  0 < max ->
  poisoned msg (run (RendererTaskpoolItem path max)
                  (Invoke c a :: Loaded 0 (Some msg) :: es)).
Proof.
  intros Hmax.
  change (Invoke c a :: Loaded 0 (Some msg) :: es)
    with ([Invoke c a; Loaded 0 (Some msg)] ++ es).
  rewrite run_app. apply (run_invariant (poisoned msg)).
  - intros s e. apply poisoned_step.
  - by apply poisoned_first.
Qed.

(** C3, as the code has it. When the window created for the first call
    fails to load, the error is thrown out of the pipeline, which is
    disposed: whatever happens afterwards, the future of that call stays
    pending, no future is ever settled, and no later call is started (the
    only start on record is that of the first call); every future handed
    out is pending. *)
Theorem spawn_failure_poisons path c a msg es :
  let s := run (requireTaskPool path None)
             (Invoke c a :: Loaded 0 (Some msg) :: es) in
  retvals s !! 0%nat = Some Pending
  /\ (0, OThrow (SpawnError msg)) ∈ trace s
  /\ isStopped s = true
  /\ settlements (trace s) = []
  /\ starts (trace s) = [0%nat]
  /\ (forall r, r ∈ submissions (trace s) -> retvals s !! r = Some Pending)
  /\ running s = [] /\ loading s = [] /\ freeWindowList s = [].
Proof.
  intros s.
  assert (poisoned msg s) as (Hs & Hr & Hl & Hf & Ht & Hst & Hse & Hn & Hp).
  { apply (poisoned_run path defaultMaxConcurrency). done. }
  assert (fresh_ok s) as [_ Hlt].
  { apply (fresh_ok_run path defaultMaxConcurrency). }
  rewrite Forall_forall in Hlt.
  split_and!; try done.
  - by apply Hp.
  - intros r Hr'. by apply Hp, Hlt.
Qed.

(** The second call of the scenario of the specification: the first window
    fails to load, the second call is made afterwards, and its future is
    still pending after any number of ticks; no second window is created. *)
Example spawn_not_retried :
  let s := run (requireTaskPool "m" None)
             ([Invoke ["m"; "f"]%string []; Loaded 0 (Some "boom"%string);
               Invoke ["m"; "g"]%string []] ++ replicate (6 * 1000) Tick) in
  retvals s !! 0%nat = Some Pending /\ retvals s !! 1%nat = Some Pending
  /\ nextBw s = 1%nat /\ q s = []
  /\ trace s =
     [(0, OQueue ["m"; "f"]%string [] 0%nat); (0, OStart 0%nat);
      (0, OSpawn 0%nat 0%nat); (0, OThrow (SpawnError "boom"));
      (0, OQueue ["m"; "g"]%string [] 1%nat)].
Proof. vm_compute. done. Qed.
(** ** The future of a call *)

Lemma retvals_handleSubscribe inv s :
  retvals (handleSubscribe inv s) = retvals s.
Proof. by destruct (handleSubscribe_cases inv s) as [(l & w & E & ->)|[E ->]]. Qed.

(** A call on the proxy returns the promise of a [retval] that no earlier
    call has, pending at the return. *)
Lemma moduleProxy_pending c a s :
  fst (moduleProxy c a s) = nextRetval s
  /\ retvals (snd (moduleProxy c a s)) !! nextRetval s = Some Pending
  /\ nextRetval (snd (moduleProxy c a s)) = S (nextRetval s).
Proof.
  split; [done|].
  destruct (moduleProxy_cases c a s) as [Hs|Hs Hlt|Hs Hge];
    rewrite ?retvals_handleSubscribe, ?nextRetval_handleSubscribe; simpl;
    by rewrite lookup_insert_eq.
Qed.

(** C7, as the code has it. A call on the proxy returns at once the
    promise of a fresh future, pending and unsettled at that point, and no
    future is settled twice. But a future need not be settled at all, and
    an error can leave the pool outside any future: when the window created
    for a call fails to load, the error is thrown out of the pipeline and
    the future of the call stays pending whatever happens afterwards. *)
Theorem future_settled_at_most_once path max es :
  let s := run (RendererTaskpoolItem path max) es in
  NoDup (settlements (trace s))
  /\ (forall c a,
        fst (moduleProxy c a s) = nextRetval s
        /\ retvals (snd (moduleProxy c a s)) !! nextRetval s = Some Pending
        /\ (nextRetval s ∉ settlements (trace s))
        /\ (nextRetval s ∉ submissions (trace s)))
  /\ (forall c a msg es',
        let s' := run (requireTaskPool path None)
                    (Invoke c a :: Loaded 0 (Some msg) :: es') in
        0%nat ∈ submissions (trace s')
        /\ retvals s' !! 0%nat = Some Pending
        /\ (0%nat ∉ settlements (trace s'))
        /\ (0, OThrow (SpawnError msg)) ∈ trace s').
Proof.
  intros s.
  assert (lin_ok s) as [Hnd Hlt] by apply lin_ok_run.
  assert (fresh_ok s) as [_ Hsub] by apply fresh_ok_run.
  rewrite Forall_forall in Hsub.
  split_and!.
  - unfold owners in Hnd. by apply NoDup_app in Hnd as (? & _ & _).
  - intros c a. destruct (moduleProxy_pending c a s) as (E1 & E2 & _).
    split_and!; [done|done| |].
    + intros Hin. assert (nextRetval s ∈ owners s) as Ho.
      { unfold owners. apply elem_of_app. by left. }
      apply Hlt in Ho. lia.
    + intros Hin. apply Hsub in Hin. lia.
  - intros c a msg es' s'.
    assert (poisoned msg s') as (Hs & Hr & Hl & Hf & Ht & Hst & Hse & Hn & Hp).
    { apply (poisoned_run path defaultMaxConcurrency). done. }
    rewrite Hse. split_and!; [|by apply Hp|set_solver|done].
    assert (fifo_ok s') as [_ (rest & E & _)].
    { apply (run_invariant fifo_ok).
      - intros s0 e. apply fifo_ok_step.
      - split; simpl; [by left|]. by exists []. }
    rewrite E, Hst. set_solver.
Qed.
(** ** The timeout of a remote call *)

(** At instant [n] the call [c] has the timeout of the source, was not
    sent in the future, and if its time is up its [retval] is among [l],
    the timeouts still to be delivered at this instant. *)
Definition call_ok (n : Z) (l : list nat) (c : Call) : Prop :=
  c_timeout c = invokeTimeoutMs /\ c_sent c <= n
  /\ (c_sent c + c_timeout c <= n -> call_id c ∈ l).

Definition timed (n : Z) (l : list nat) (s : Pool) : Prop :=
  now s = n /\ Forall (call_ok n l) (running s).

(** Every outstanding call is within its timeout. *)
Definition timed_ok (s : Pool) : Prop := timed (now s) [] s.

Lemma call_ok_new n l w inv : call_ok n l (mkCall w invokeTimeoutMs inv n).
Proof. unfold call_ok, invokeTimeoutMs. simpl. split_and!; [done|lia|lia]. Qed.

Lemma timed_handleSubscribe n l inv s :
  timed n l s -> timed n l (handleSubscribe inv s).
Proof.
  intros [Hn Hf].
  destruct (handleSubscribe_cases inv s) as [(fl & w & E & ->)|[E ->]];
    split; simpl; try done.
  apply Forall_app. split; [done|]. apply Forall_singleton.
  rewrite Hn. apply call_ok_new.
Qed.

Lemma calls_ok_remove n l l1 c l2 :
  NoDup (map call_id (l1 ++ c :: l2)) ->
  Forall (call_ok n (call_id c :: l)) (l1 ++ c :: l2) ->
  Forall (call_ok n l) (l1 ++ l2).
Proof.
  intros Hnd Hf. rewrite Forall_forall in Hf. apply Forall_forall.
  intros k Hk.
  assert (k ∈ l1 ++ c :: l2) as Hin.
  { apply elem_of_app. apply elem_of_app in Hk as [?|?]; [by left|].
    right. by apply list_elem_of_further. }
  destruct (Hf k Hin) as (H1 & H2 & H3). split_and!; [done..|].
  intros Hdue. apply H3 in Hdue. apply elem_of_cons in Hdue as [Heq|Hdue]; [|done].
  exfalso. rewrite map_app in Hnd. simpl in Hnd.
  apply NoDup_app in Hnd as (Hn1 & Hn2 & Hn3).
  apply NoDup_cons in Hn3 as [Hn3 _].
  apply elem_of_app in Hk as [Hk|Hk].
  - apply (Hn2 (call_id k)); [by apply list_elem_of_fmap_2|].
    rewrite Heq. apply list_elem_of_here.
  - apply Hn3. rewrite <- Heq. by apply list_elem_of_fmap_2.
Qed.

Lemma running_NoDup s : lin_ok s -> NoDup (map call_id (running s)).
Proof.
  intros [Hnd _]. unfold owners in Hnd.
  apply NoDup_app in Hnd as (_ & _ & Hnd). by apply NoDup_app in Hnd as (? & _ & _).
Qed.

(** The answer of the call [r] leaves the others as they are; a call that
    starts in its place is sent now. *)
Lemma timed_on_reply n l r o s :
  lin_ok s -> timed n (r :: l) s -> timed n l (on_reply r o s).
Proof.
  intros Hlin [Hn Hf]. apply running_NoDup in Hlin.
  destruct (on_reply_cases r o s) as
    [H|c l1 l2 E Hc Hnin Hs|c l1 l2 E Hc Hnin Hs Hq|c l1 l2 inv qs E Hc Hnin Hs Hq].
  - apply take_call_None in H. split; [done|].
    rewrite Forall_forall in Hf. apply Forall_forall. intros k Hk.
    destruct (Hf k Hk) as (H1 & H2 & H3). split_and!; [done..|].
    intros Hdue. apply H3 in Hdue. apply elem_of_cons in Hdue as [Heq|Hdue]; [|done].
    destruct H. rewrite <- Heq. by apply list_elem_of_fmap_2.
  - rewrite E, <- Hc in *. split; [done|]. simpl. by eapply calls_ok_remove.
  - rewrite E, <- Hc in *. split; [done|]. simpl. by eapply calls_ok_remove.
  - rewrite E, <- Hc in *. apply timed_handleSubscribe.
    split; [done|]. simpl. by eapply calls_ok_remove.
Qed.

Lemma timed_weaken n l l' s :
  (forall r, r ∈ l -> r ∈ l') -> timed n l s -> timed n l' s.
Proof.
  intros Hl [Hn Hf]. split; [done|]. eapply Forall_impl; [done|].
  intros c (H1 & H2 & H3). split_and!; [done..|]. intros. by apply Hl, H3.
Qed.

Lemma foldl_invariant_list {A B} (Q : list B -> A -> Prop) (f : A -> B -> A) :
  (forall b l a, Q (b :: l) a -> Q l (f a b)) ->
  forall l a, Q l a -> Q [] (foldl f a l).
Proof.
  intros Hf l. induction l as [|b l IH]; intros a Ha; [done|].
  simpl. apply IH. by apply Hf.
Qed.

Lemma timed_ok_tick s : lin_ok s -> timed_ok s -> lin_ok (tick s) /\ timed_ok (tick s).
Proof.
  intros Hlin [_ Hf]. unfold tick, fire_throttle.
  set (s0 := set_now s (now s + 1)).
  set (s1 := fire_timeouts s0).
  assert (lin_ok s1 /\ timed (now s + 1) [] s1) as [Hl1 [Hn1 Hf1]].
  { unfold s1, fire_timeouts.
    apply (foldl_invariant_list (fun l s' => lin_ok s' /\ timed (now s + 1) l s')).
    - intros r l s' [Hl' Ht']. split; [by apply lin_ok_on_reply|].
      by apply timed_on_reply.
    - split; [exact Hlin|]. split; [done|]. simpl.
      rewrite Forall_forall in Hf. apply Forall_forall. intros c Hc.
      destruct (Hf c Hc) as (H1 & H2 & H3). split_and!; [done|lia|].
      intros Hdue. apply (list_elem_of_fmap_2 (fun c => retval (c_inv c))).
      apply list_elem_of_filter. split; [|done].
      unfold overdue. simpl. by apply Z.leb_le. }
  assert (timed_ok s1) as Ht1 by (split; [done|by rewrite Hn1]).
  destruct (throttle s1) as [d|]; [|done].
  destruct (d <=? now s1); [|done]. split; [by apply lin_ok_reap|].
  rewrite reap_spec. exact Ht1.
Qed.

Lemma timed_ok_step s e :
  lin_ok s -> timed_ok s -> timed_ok (step s e).
Proof.
  intros Hlin Ht. destruct e as [c a|b f|r o|]; unfold step.
  - destruct (moduleProxy_cases c a s) as [Hs|Hs Hlt|Hs Hge]; [done| |done].
    unfold timed_ok.
    match goal with |- timed (now (handleSubscribe ?i ?s0)) _ _ =>
      destruct (timed_handleSubscribe (now s) [] i s0 Ht) as [Hn Hf] end.
    rewrite Hn. by split.
  - destruct (on_loaded_cases b f s) as
      [H|inv l1 l2 E Hs|inv l1 l2 msg E Hs Hf|inv l1 l2 E Hs Hf]; [done..|].
    destruct Ht as [_ Hf']. split; [done|]. simpl.
    apply Forall_app. split; [done|]. apply Forall_singleton, call_ok_new.
  - unfold timed_ok.
    destruct (timed_on_reply (now s) [] r o s Hlin) as [Hn Hf].
    { eapply timed_weaken; [|exact Ht]. set_solver. }
    rewrite Hn. by split.
  - by apply timed_ok_tick.
Qed.
(** Every remote call on record was sent with the timeout of the source,
    and either its [retval] was settled or the call is outstanding, sent
    at the instant on record. *)
Definition accounted (s : Pool) : Prop :=
  forall t w timeout c a r, (t, OInvoke w timeout c a r) ∈ trace s ->
    timeout = invokeTimeoutMs
    /\ (r ∈ settlements (trace s)
        \/ exists k, k ∈ running s /\ call_id k = r /\ c_sent k = t).

Lemma accounted_grow s s' l :
  accounted s -> trace s' = trace s ++ l ->
  (forall k, k ∈ running s ->
     k ∈ running s' \/ call_id k ∈ settlements (trace s')) ->
  (forall t w timeout c a r, (t, OInvoke w timeout c a r) ∈ l ->
     timeout = invokeTimeoutMs
     /\ exists k, k ∈ running s' /\ call_id k = r /\ c_sent k = t) ->
  accounted s'.
Proof.
  intros Ha Et Hk Hl t w timeout c a r Hin. rewrite Et in Hin.
  apply elem_of_app in Hin as [Hin|Hin].
  - destruct (Ha _ _ _ _ _ _ Hin) as [H1 [H2|(k & K1 & K2 & K3)]]; (split; [done|]).
    + left. rewrite Et, settlements_app. apply elem_of_app. by left.
    + destruct (Hk k K1) as [?|?]; [right; by exists k|left; by rewrite <- K2].
  - destruct (Hl _ _ _ _ _ _ Hin) as [H1 H2]. split; [done|]. by right.
Qed.

Ltac no_invoke H :=
  repeat (apply elem_of_cons in H as [H|H]; [discriminate H|]);
  by apply elem_of_nil in H.

Lemma accounted_handleSubscribe inv s : accounted s -> accounted (handleSubscribe inv s).
Proof.
  intros Ha.
  destruct (handleSubscribe_cases inv s) as [(fl & w & E & ->)|[E ->]].
  - eapply accounted_grow; [exact Ha|done|..]; simpl.
    + intros k Hk. left. apply elem_of_app. by left.
    + intros t w' timeout c a r Hin.
      apply elem_of_cons in Hin as [Hin|Hin]; [discriminate Hin|].
      apply list_elem_of_singleton in Hin. injection Hin as -> -> -> -> -> ->.
      split; [done|]. exists (mkCall w invokeTimeoutMs inv (now s)).
      split; [|done]. apply elem_of_app. right. apply list_elem_of_here.
  - eapply accounted_grow; [exact Ha|done|..]; simpl.
    + intros k Hk. by left.
    + intros t w' timeout c a r Hin. no_invoke Hin.
Qed.

Lemma settled_elem r o tr t : r ∈ settlements (tr ++ [(t, OSettle r o)]).
Proof. rewrite settlements_app. apply elem_of_app. right. apply list_elem_of_here. Qed.

Lemma accounted_settled r o c l1 l2 s :
  accounted s -> running s = l1 ++ c :: l2 -> call_id c = r ->
  accounted (settled r o (l1 ++ l2) s).
Proof.
  intros Ha E Hc. eapply accounted_grow; [exact Ha|done|..]; simpl.
  - intros k Hk. rewrite E in Hk.
    apply elem_of_app in Hk as [Hk|Hk].
    + left. apply elem_of_app. by left.
    + apply elem_of_cons in Hk as [->|Hk].
      * right. rewrite Hc. apply settled_elem.
      * left. apply elem_of_app. by right.
  - intros t w' timeout c' a r' Hin. no_invoke Hin.
Qed.

Lemma accounted_completed w s : accounted s -> accounted (completed w s).
Proof.
  intros Ha. eapply accounted_grow; [exact Ha|done|..]; simpl.
  - intros k Hk. by left.
  - intros t w' timeout c' a r' Hin. no_invoke Hin.
Qed.

Lemma accounted_set_activeCount s n : accounted s -> accounted (set_activeCount s n).
Proof. intros H. exact H. Qed.

Lemma accounted_set_q s l : accounted s -> accounted (set_q s l).
Proof. intros H. exact H. Qed.

Lemma accounted_on_reply r o s : accounted s -> accounted (on_reply r o s).
Proof.
  intros Ha.
  destruct (on_reply_cases r o s) as
    [H|c l1 l2 E Hc Hnin Hs|c l1 l2 E Hc Hnin Hs Hq|c l1 l2 inv qs E Hc Hnin Hs Hq];
    [done|..].
  - by apply (accounted_settled r o c).
  - by apply accounted_set_activeCount, accounted_completed,
      (accounted_settled r o c).
  - by apply accounted_handleSubscribe, accounted_set_q, accounted_completed,
      (accounted_settled r o c).
Qed.

Lemma accounted_on_loaded b f s : accounted s -> accounted (on_loaded b f s).
Proof.
  intros Ha.
  destruct (on_loaded_cases b f s) as
    [H|inv l1 l2 E Hs|inv l1 l2 msg E Hs Hf|inv l1 l2 E Hs Hf]; [done|done|..].
  - eapply accounted_grow; [exact Ha|done|..]; simpl.
    + intros k Hk. by left.
    + intros t w' timeout c' a r' Hin. no_invoke Hin.
  - eapply accounted_grow; [exact Ha|done|..]; simpl.
    + intros k Hk. left. apply elem_of_app. by left.
    + intros t w' timeout c a r Hin.
      apply list_elem_of_singleton in Hin. injection Hin as -> -> -> -> -> ->.
      split; [done|]. exists (mkCall (mkWnd b) invokeTimeoutMs inv (now s)).
      split; [|done]. apply elem_of_app. right. apply list_elem_of_here.
Qed.

Lemma accounted_moduleProxy c a s : accounted s -> accounted (snd (moduleProxy c a s)).
Proof.
  intros Ha.
  assert (forall s', trace s' = trace s ++ [(now s, OQueue c a (nextRetval s))] ->
                     running s' = running s -> accounted s') as Hq.
  { intros s' Et Er. eapply accounted_grow; [exact Ha|exact Et|..].
    - intros k Hk. left. by rewrite Er.
    - intros t w' timeout c' a' r' Hin. no_invoke Hin. }
  destruct (moduleProxy_cases c a s) as [Hs|Hs Hlt|Hs Hge].
  - by apply Hq.
  - apply accounted_handleSubscribe. by apply Hq.
  - by apply Hq.
Qed.

Lemma accounted_reap s : accounted s -> accounted (reap s).
Proof.
  intros Ha. rewrite reap_spec. eapply accounted_grow; [exact Ha|done|..]; simpl.
  - intros k Hk. by left.
  - intros t w' timeout c' a' r' Hin.
    apply elem_of_cons in Hin as [Hin|Hin]; [discriminate Hin|].
    apply list_elem_of_fmap in Hin as (w0 & Hin & _). discriminate Hin.
Qed.

Lemma accounted_step s e : accounted s -> accounted (step s e).
Proof.
  destruct e as [c a|b f|r o|]; unfold step.
  - apply accounted_moduleProxy.
  - apply accounted_on_loaded.
  - apply accounted_on_reply.
  - intros H. apply tick_invariant.
    + exact H.
    + intros. by apply accounted_on_reply.
    + intros. by apply accounted_reap.
Qed.

(** A [retval] on record as settled is resolved or rejected. *)
Definition settled_ok (s : Pool) : Prop :=
  forall r, r ∈ settlements (trace s) -> exists o, retvals s !! r = Some (settle o).

Lemma settled_ok_same s s' l :
  settled_ok s -> trace s' = trace s ++ l -> settlements l = [] ->
  retvals s' = retvals s -> settled_ok s'.
Proof.
  intros H Et El Er r Hr. rewrite Et, settlements_app, El, app_nil_r in Hr.
  rewrite Er. by apply H.
Qed.

Lemma settled_ok_handleSubscribe inv s :
  settled_ok s -> settled_ok (handleSubscribe inv s).
Proof.
  intros H.
  destruct (handleSubscribe_cases inv s) as [(fl & w & E & ->)|[E ->]];
    by eapply settled_ok_same.
Qed.

Lemma settled_ok_settled r o rest s : settled_ok s -> settled_ok (settled r o rest s).
Proof.
  intros H r' Hr. simpl in *. rewrite settlements_app in Hr. simpl in Hr.
  destruct (decide (r' = r)) as [->|Hne].
  - exists o. apply lookup_insert_eq.
  - rewrite lookup_insert_ne by done. apply H.
    apply elem_of_app in Hr as [Hr|Hr]; [done|].
    apply list_elem_of_singleton in Hr. done.
Qed.

Lemma settled_ok_completed w s : settled_ok s -> settled_ok (completed w s).
Proof. intros H. by eapply settled_ok_same. Qed.

Lemma settled_ok_set_activeCount s n :
  settled_ok s -> settled_ok (set_activeCount s n).
Proof. intros H. exact H. Qed.

Lemma settled_ok_set_q s l : settled_ok s -> settled_ok (set_q s l).
Proof. intros H. exact H. Qed.

Lemma settled_ok_on_reply r o s : settled_ok s -> settled_ok (on_reply r o s).
Proof.
  intros H.
  destruct (on_reply_cases r o s) as
    [H0|c l1 l2 E Hc Hnin Hs|c l1 l2 E Hc Hnin Hs Hq|c l1 l2 inv qs E Hc Hnin Hs Hq];
    [done|..].
  - by apply settled_ok_settled.
  - by apply settled_ok_set_activeCount, settled_ok_completed, settled_ok_settled.
  - by apply settled_ok_handleSubscribe, settled_ok_set_q, settled_ok_completed,
      settled_ok_settled.
Qed.

Lemma settled_ok_step s e : lin_ok s -> settled_ok s -> settled_ok (step s e).
Proof.
  intros [_ Hlt] H. destruct e as [c a|b f|r o|]; unfold step.
  - assert (forall s', trace s' = trace s ++ [(now s, OQueue c a (nextRetval s))] ->
                       retvals s' = <[nextRetval s := Pending]> (retvals s) ->
                       settled_ok s') as Hq.
    { intros s' Et Er r Hr. rewrite Et, settlements_app in Hr. simpl in Hr.
      rewrite app_nil_r in Hr. rewrite Er.
      rewrite lookup_insert_ne; [by apply H|].
      assert (r ∈ owners s) as Ho by (unfold owners; apply elem_of_app; by left).
      apply Hlt in Ho. lia. }
    destruct (moduleProxy_cases c a s) as [Hs|Hs Hl|Hs Hge].
    + by apply Hq.
    + apply settled_ok_handleSubscribe. by apply Hq.
    + by apply Hq.
  - destruct (on_loaded_cases b f s) as
      [H0|inv l1 l2 E Hs|inv l1 l2 msg E Hs Hf|inv l1 l2 E Hs Hf]; [done|done|..];
      by eapply settled_ok_same.
  - by apply settled_ok_on_reply.
  - apply tick_invariant.
    + exact H.
    + intros. by apply settled_ok_on_reply.
    + intros s' H'. rewrite reap_spec.
      eapply (settled_ok_same s'); [done|done| |done].
      change (?x :: ?l) with ([x] ++ l). rewrite settlements_app.
      by rewrite settlements_disposals.
Qed.

Definition deadline_ok (s : Pool) : Prop :=
  lin_ok s /\ timed_ok s /\ accounted s /\ settled_ok s.

Lemma deadline_ok_run path max es :
  deadline_ok (run (RendererTaskpoolItem path max) es).
Proof.
  apply (run_invariant deadline_ok).
  - intros s e (H1 & H2 & H3 & H4). split_and!.
    + by apply lin_ok_step.
    + by apply timed_ok_step.
    + by apply accounted_step.
    + by apply settled_ok_step.
  - split_and!.
    + split; [constructor|]. intros r Hr. by apply elem_of_nil in Hr.
    + split; [done|]. constructor.
    + intros t w timeout c a r Hin. by apply elem_of_nil in Hin.
    + intros r Hr. by apply elem_of_nil in Hr.
Qed.

(** C10. Every remote call is sent with a timeout of 240000 milliseconds;
    a call that is outstanding was sent less than 240000 milliseconds ago;
    and once 240000 milliseconds have passed since a call was sent, the
    future of its invocation is resolved or rejected. A call that gets no
    answer is pending at 239999 milliseconds and rejected with the timeout
    error at 240000, and its window is back on the stack. *)
Theorem invoke_timeout path max es :
  let s := run (RendererTaskpoolItem path max) es in
  invokeTimeoutMs = 240000
  /\ (forall t w timeout c a r,
        (t, OInvoke w timeout c a r) ∈ trace s ->
        timeout = 240000
        /\ (t + 240000 <= now s -> exists o, retvals s !! r = Some (settle o)))
  /\ (forall k, k ∈ running s ->
        c_timeout k = 240000 /\ c_sent k <= now s < c_sent k + 240000)
  /\ (let s1 := run (requireTaskPool path None)
                  [Invoke ["m"; "f"]%string []; Loaded 0 None] in
      retvals (run s1 (ticks (240 * 1000 - 1))) !! 0%nat = Some Pending
      /\ retvals (run s1 (ticks (240 * 1000))) !! 0%nat = Some (Rejected TimeoutError)
      /\ freeWindowList (run s1 (ticks (240 * 1000))) = [mkWnd 0]).
Proof.
  intros s.
  assert (deadline_ok s) as (Hlin & [_ Ht] & Ha & Hs) by apply deadline_ok_run.
  rewrite Forall_forall in Ht.
  split_and!.
  - done.
  - intros t w timeout c a r Hin.
    destruct (Ha _ _ _ _ _ _ Hin) as [H1 H2]. split; [done|].
    intros Hdue. destruct H2 as [H2|(k & K1 & K2 & K3)]; [by apply Hs|].
    destruct (Ht k K1) as (T1 & T2 & T3). exfalso.
    assert (call_id k ∈ @nil nat) as Hnil.
    { apply T3. rewrite T1, K3. unfold invokeTimeoutMs. lia. }
    by apply elem_of_nil in Hnil.
  - intros k Hk. destruct (Ht k Hk) as (T1 & T2 & T3).
    rewrite T1 in T3. unfold invokeTimeoutMs in *. split_and!; [done..|].
    destruct (Z.lt_ge_cases (now s) (c_sent k + 240 * 1000)) as [?|Hge]; [lia|].
    apply T3 in Hge. by apply elem_of_nil in Hge.
  - by vm_compute.
Qed.
(** ** The idle reaper *)

(** The timer of the throttle after one more event: a completion arms it
    for one interval later, the reaper firing leaves it unarmed. *)
Definition arm (st : option Z) (x : Z * Obs) : option Z :=
  match snd x with
  | OCompletion _ => Some (fst x + idleReapIntervalMs)
  | OReap => None
  | _ => st
  end.

(** The instant the timer is armed for, after the events [tr]. *)
Definition armed (tr : list (Z * Obs)) : option Z := foldl arm None tr.

(** Every firing of the reaper in [tr] happens at the instant the timer
    was armed for; [st] is the timer before [tr]. *)
Fixpoint reaps_ok (st : option Z) (tr : list (Z * Obs)) : Prop :=
  match tr with
  | [] => True
  | x :: tr' => (snd x = OReap -> st = Some (fst x)) /\ reaps_ok (arm st x) tr'
  end.

(** Events that are neither a completion nor a firing of the reaper. *)
Definition quiet (l : list (Z * Obs)) : Prop :=
  Forall (fun x => match snd x with OCompletion _ | OReap => False | _ => True end) l.

Lemma reaps_ok_app st tr l :
  reaps_ok st (tr ++ l) <-> reaps_ok st tr /\ reaps_ok (foldl arm st tr) l.
Proof.
  revert st. induction tr as [|x tr IH]; intros st; simpl; [tauto|].
  rewrite IH. tauto.
Qed.

Lemma quiet_arm st l : quiet l -> foldl arm st l = st /\ reaps_ok st l.
Proof.
  induction 1 as [|[t o] l Hx Hl [IH1 IH2]]; [done|].
  assert (arm st (t, o) = st) as E by (by destruct o).
  simpl. rewrite E. split_and!; [done| |done].
  simpl. intros ->. done.
Qed.

Lemma quiet_disposals (l : list Wnd) t : quiet (map (fun w => (t, ODispose w)) l).
Proof. induction l; by constructor. Qed.

(** A timer armed for [d] was armed by a completion one interval before
    [d], and nothing but quiet events came after it. *)
Lemma armed_Some tr d :
  armed tr = Some d ->
  exists pre w post,
    tr = pre ++ (d - idleReapIntervalMs, OCompletion w) :: post /\ quiet post.
Proof.
  unfold armed. induction tr as [|[t o] tr IH] using rev_ind; [done|].
  rewrite foldl_app. simpl. intros H.
  assert ((exists w, o = OCompletion w /\ d = t + idleReapIntervalMs)
          \/ (foldl arm None tr = Some d /\ quiet [(t, o)])) as [(w & -> & ->)|[H1 H2]].
  { destruct o; try (right; split; [exact H|by repeat constructor]).
    - left. injection H as <-. by eexists.
    - discriminate H. }
  - exists tr, w, []. split; [|constructor].
    by replace (t + idleReapIntervalMs - idleReapIntervalMs) with t by lia.
  - destruct (IH H1) as (pre & w & post & -> & Hq).
    exists pre, w, (post ++ [(t, o)]). split; [by rewrite <- app_assoc|].
    by apply Forall_app.
Qed.

(** The timer of the model is the timer of the record, every firing on
    record was due, and the timer is armed for an instant at least [k]
    milliseconds ahead. *)
Definition reap_ok (k : Z) (s : Pool) : Prop :=
  throttle s = armed (trace s)
  /\ reaps_ok None (trace s)
  /\ forall d, throttle s = Some d -> now s + k <= d.

Lemma reap_ok_quiet k s s' l :
  reap_ok k s -> trace s' = trace s ++ l -> quiet l ->
  throttle s' = throttle s -> now s' = now s -> reap_ok k s'.
Proof.
  intros (H1 & H2 & H3) Et Hq Eth En.
  destruct (quiet_arm (armed (trace s)) l Hq) as [Q1 Q2].
  unfold reap_ok. rewrite Et, Eth, En. split_and!; [|by apply reaps_ok_app|done].
  unfold armed in *. by rewrite foldl_app, Q1.
Qed.

Lemma reap_ok_handleSubscribe k inv s :
  reap_ok k s -> reap_ok k (handleSubscribe inv s).
Proof.
  intros H.
  destruct (handleSubscribe_cases inv s) as [(fl & w & E & ->)|[E ->]];
    (eapply reap_ok_quiet; [exact H|done| |done|done]); by repeat constructor.
Qed.

Lemma reap_ok_settled k r o rest s : reap_ok k s -> reap_ok k (settled r o rest s).
Proof.
  intros H. eapply reap_ok_quiet; [exact H|done| |done|done]. by repeat constructor.
Qed.

Lemma reap_ok_completed k w s :
  k <= idleReapIntervalMs -> reap_ok k s -> reap_ok k (completed w s).
Proof.
  intros Hk (H1 & H2 & H3). unfold reap_ok, armed. simpl.
  rewrite foldl_app. simpl. split_and!; [done| |].
  - apply reaps_ok_app. split; [done|]. simpl. split; [|done]. intros [=].
  - intros d [= <-]. lia.
Qed.

Lemma reap_ok_set_activeCount k s n : reap_ok k s -> reap_ok k (set_activeCount s n).
Proof. intros H. exact H. Qed.

Lemma reap_ok_set_q k s l : reap_ok k s -> reap_ok k (set_q s l).
Proof. intros H. exact H. Qed.

Lemma reap_ok_on_reply k r o s :
  k <= idleReapIntervalMs -> reap_ok k s -> reap_ok k (on_reply r o s).
Proof.
  intros Hk H.
  destruct (on_reply_cases r o s) as
    [H0|c l1 l2 E Hc Hnin Hs|c l1 l2 E Hc Hnin Hs Hq|c l1 l2 inv qs E Hc Hnin Hs Hq];
    [done|..].
  - by apply reap_ok_settled.
  - by apply reap_ok_set_activeCount, reap_ok_completed, reap_ok_settled.
  - by apply reap_ok_handleSubscribe, reap_ok_set_q, reap_ok_completed,
      reap_ok_settled.
Qed.

Lemma reap_ok_on_loaded k b f s : reap_ok k s -> reap_ok k (on_loaded b f s).
Proof.
  intros H.
  destruct (on_loaded_cases b f s) as
    [H0|inv l1 l2 E Hs|inv l1 l2 msg E Hs Hf|inv l1 l2 E Hs Hf]; [done|done|..];
    (eapply reap_ok_quiet; [exact H|done| |done|done]); by repeat constructor.
Qed.

Lemma reap_ok_moduleProxy k c a s : reap_ok k s -> reap_ok k (snd (moduleProxy c a s)).
Proof.
  intros H.
  assert (forall s', trace s' = trace s ++ [(now s, OQueue c a (nextRetval s))] ->
                     throttle s' = throttle s -> now s' = now s -> reap_ok k s') as Hq.
  { intros s' Et Eth En. eapply reap_ok_quiet; [exact H|exact Et| |done|done].
    by repeat constructor. }
  destruct (moduleProxy_cases c a s) as [Hs|Hs Hlt|Hs Hge].
  - by apply Hq.
  - apply reap_ok_handleSubscribe. by apply Hq.
  - by apply Hq.
Qed.

Lemma now_handleSubscribe inv s : now (handleSubscribe inv s) = now s.
Proof. by destruct (handleSubscribe_cases inv s) as [(l & w & E & ->)|[E ->]]. Qed.

Lemma now_on_reply r o s : now (on_reply r o s) = now s.
Proof.
  destruct (on_reply_cases r o s) as
    [H0|c l1 l2 E Hc Hnin Hs|c l1 l2 E Hc Hnin Hs Hq|c l1 l2 inv qs E Hc Hnin Hs Hq];
    rewrite ?now_handleSubscribe; done.
Qed.

Lemma reap_ok_reap s :
  reap_ok 0 s -> throttle s = Some (now s) -> reap_ok 1 (reap s).
Proof.
  intros (H1 & H2 & H3) Hth. rewrite reap_spec.
  set (D := map _ (reverse (freeWindowList s))).
  destruct (quiet_arm None D) as [Q1 Q2]; [apply quiet_disposals|].
  unfold reap_ok, armed. simpl. rewrite foldl_app. simpl.
  unfold arm at 2. simpl. rewrite Q1. split_and!; [done| |done].
  apply reaps_ok_app. split; [done|]. simpl. split; [|done].
  intros _. fold (armed (trace s)). by rewrite <- H1.
Qed.

Lemma reap_ok_tick s : reap_ok 1 s -> reap_ok 1 (tick s).
Proof.
  intros (H1 & H2 & H3). unfold tick, fire_throttle.
  set (s0 := set_now s (now s + 1)).
  set (s1 := fire_timeouts s0).
  assert (reap_ok 0 s1 /\ now s1 = now s + 1) as [Hr0 Hn].
  { unfold s1, fire_timeouts.
    apply (foldl_invariant (fun s' => reap_ok 0 s' /\ now s' = now s + 1)).
    - intros a r [Ha Hn]. split.
      + apply reap_ok_on_reply; [unfold idleReapIntervalMs; lia|done].
      + by rewrite now_on_reply.
    - split; [|done]. split_and!; [done..|].
      simpl. intros d Hd. apply H3 in Hd. lia. }
  destruct (throttle s1) as [d|] eqn:Hth.
  - destruct (Z.leb_spec d (now s1)) as [Hle|Hgt].
    + apply reap_ok_reap; [done|].
      destruct Hr0 as (_ & _ & T3). specialize (T3 d Hth).
      rewrite Hth. f_equal. lia.
    + destruct Hr0 as (T1 & T2 & T3). split_and!; [done..|].
      intros d' Hd. rewrite Hth in Hd. injection Hd as <-. lia.
  - destruct Hr0 as (T1 & T2 & T3). split_and!; [done..|].
    intros d' Hd. by rewrite Hth in Hd.
Qed.

Lemma reap_ok_step s e : reap_ok 1 s -> reap_ok 1 (step s e).
Proof.
  destruct e as [c a|b f|r o|]; unfold step.
  - apply reap_ok_moduleProxy.
  - apply reap_ok_on_loaded.
  - apply reap_ok_on_reply. unfold idleReapIntervalMs. lia.
  - apply reap_ok_tick.
Qed.

Lemma reap_ok_run path max es : reap_ok 1 (run (RendererTaskpoolItem path max) es).
Proof.
  apply (run_invariant (reap_ok 1)).
  - intros s e. apply reap_ok_step.
  - split_and!; [done..|]. intros d Hd. discriminate Hd.
Qed.

(** C6. The reaper fires only at the end of a quiet interval: each firing
    on record, at instant [t], follows a completion at [t - 5000] with no
    completion (and no firing) in between, so that any completion puts the
    firing off to 5000 milliseconds after itself. When it fires, every
    window of the stack is disposed, the last pushed first, and the stack
    is empty; the calls that are running, the windows that are loading,
    the queue and the futures are as they were. With completions at 0 and
    at 3000 the window is still free at 7999 and burnt at 8000. *)
Theorem idle_reaper path max es :
  let s := run (RendererTaskpoolItem path max) es in
  (forall pre t post,
     trace s = pre ++ (t, OReap) :: post ->
     exists pre1 w pre2,
       pre = pre1 ++ (t - 5000, OCompletion w) :: pre2 /\ quiet pre2)
  /\ (forall w, throttle (subscriber_onNext w s) = Some (now s + 5000))
  /\ (freeWindowList (reap s) = []
      /\ trace (reap s)
         = trace s ++ (now s, OReap)
             :: map (fun w => (now s, ODispose w)) (reverse (freeWindowList s))
      /\ running (reap s) = running s /\ loading (reap s) = loading s
      /\ q (reap s) = q s /\ retvals (reap s) = retvals s
      /\ activeCount (reap s) = activeCount s)
  /\ (let s1 := run (requireTaskPool path None)
                  ([Invoke ["m"; "f"]%string []; Loaded 0 None;
                    Reply 0 (Returned VUndefined)]
                   ++ ticks 3000
                   ++ [Invoke ["m"; "g"]%string [];
                       Reply 1 (Failed (InvocationError "no"))]) in
      throttle s1 = Some 8000
      /\ freeWindowList (run s1 (ticks 4999)) = [mkWnd 0]
      /\ freeWindowList (run s1 (ticks 5000)) = []
      /\ drop 11 (trace (run s1 (ticks 5000)))
         = [(8000, OReap); (8000, ODispose (mkWnd 0))]).
Proof.
  intros s. split; [|split; [|split]].
  - intros pre t post E.
    destruct (reap_ok_run path max es) as (_ & H2 & _). fold s in H2.
    rewrite E in H2. apply reaps_ok_app in H2 as [_ H2]. simpl in H2.
    destruct H2 as [H2 _]. specialize (H2 eq_refl).
    apply armed_Some in H2. exact H2.
  - done.
  - rewrite reap_spec. by split_and!.
  - by vm_compute.
Qed.
(** ** What a call on the proxy does *)

(** C9. A call on the proxy with the chain [c] and the arguments [a]
    makes the invocation with the chain [requiredModule] followed by [c]
    without its first element, the arguments [a] unchanged and a fresh
    [retval], and while the pipeline is subscribed hands it to the merge:
    when every slot is taken it is put at the end of the queue; otherwise
    it is sent at once, with that chain and those arguments, to the window
    on top of the stack, or a window is created for it. The window that
    finishes loading is sent the invocation it was created for, and a
    window that is freed is sent the oldest invocation of the queue, each
    with the chain and the arguments of the invocation. So every
    invocation in the queue and every remote call that was sent carries
    the rewritten chain and the arguments of the one call with its
    [retval]; a first call [c(a)] reaches the first window as
    [requiredModule] followed by [c] without its first element. *)
Theorem chain_rewritten path max es :
  let s := run (RendererTaskpoolItem path max) es in
  (forall c a,
     let inv := mkInvocation ("requiredModule"%string :: drop 1 c) a (nextRetval s) in
     let s' := step s (Invoke c a) in
     isStopped s = false ->
     (now s, OQueue c a (nextRetval s)) ∈ trace s'
     /\ ((maxConcurrency s <= Z.of_nat (activeCount s)
          /\ q s' = q s ++ [inv]
          /\ trace s' = trace s ++ [(now s, OQueue c a (nextRetval s))])
         \/ (Z.of_nat (activeCount s) < maxConcurrency s
             /\ q s' = q s
             /\ exists l w,
                  freeWindowList s = l ++ [w]
                  /\ running s' = running s ++ [mkCall w 240000 inv (now s)]
                  /\ trace s'
                     = trace s
                       ++ [(now s, OQueue c a (nextRetval s));
                           (now s, OStart (nextRetval s));
                           (now s, OInvoke w 240000
                                     ("requiredModule"%string :: drop 1 c) a
                                     (nextRetval s))])
         \/ (Z.of_nat (activeCount s) < maxConcurrency s
             /\ q s' = q s
             /\ freeWindowList s = []
             /\ loading s' = loading s ++ [(nextBw s, inv)]
             /\ trace s'
                = trace s
                  ++ [(now s, OQueue c a (nextRetval s));
                      (now s, OStart (nextRetval s));
                      (now s, OSpawn (nextBw s) (nextRetval s))])))
  /\ (forall b inv rest,
        isStopped s = false -> take_load b (loading s) = Some (inv, rest) ->
        loading (step s (Loaded b None)) = rest
        /\ running (step s (Loaded b None))
           = running s ++ [mkCall (mkWnd b) 240000 inv (now s)]
        /\ trace (step s (Loaded b None))
           = trace s ++ [(now s, OInvoke (mkWnd b) 240000 (chain inv) (args inv)
                                   (retval inv))])
  /\ (forall r o k rest inv qs,
        isStopped s = false -> take_call r (running s) = Some (k, rest) ->
        q s = inv :: qs ->
        q (step s (Reply r o)) = qs
        /\ running (step s (Reply r o))
           = rest ++ [mkCall (c_wnd k) 240000 inv (now s)]
        /\ trace (step s (Reply r o))
           = trace s ++ [(now s, OSettle r o); (now s, OCompletion (c_wnd k));
                         (now s, OStart (retval inv));
                         (now s, OInvoke (c_wnd k) 240000 (chain inv) (args inv)
                                   (retval inv))])
  /\ (forall t w timeout c a r,
        (t, OInvoke w timeout c a r) ∈ trace s ->
        exists t0 c0,
          (t0, OQueue c0 a r) ∈ trace s
          /\ c = "requiredModule"%string :: drop 1 c0
          /\ forall t1 c1 a1, (t1, OQueue c1 a1 r) ∈ trace s -> c1 = c0 /\ a1 = a)
  /\ (forall inv, inv ∈ q s ->
        exists t0 c0,
          (t0, OQueue c0 (args inv) (retval inv)) ∈ trace s
          /\ chain inv = "requiredModule"%string :: drop 1 c0)
  /\ (forall c a,
        trace (run (requireTaskPool path None) [Invoke c a; Loaded 0 None])
        = [(0, OQueue c a 0%nat); (0, OStart 0%nat); (0, OSpawn 0%nat 0%nat);
           (0, OInvoke (mkWnd 0) 240000 ("requiredModule"%string :: drop 1 c) a
                 0%nat)]).
Proof.
  intros s. split; [|split; [|split; [|split; [|split]]]].
  - intros c a inv s' Hs. unfold s', step.
    destruct (moduleProxy_cases c a s) as [Hs'|_ Hlt|_ Hge]; [congruence|..].
    + match goal with |- context [handleSubscribe ?i ?s0] =>
        destruct (handleSubscribe_cases i s0) as [(l & w & E & ->)|[E ->]] end;
        simpl in *.
      * split.
        { rewrite <- app_assoc. apply elem_of_app. right. apply list_elem_of_here. }
        right. left. split; [done|]. split; [done|]. exists l, w.
        split; [done|]. split; [done|]. by rewrite <- app_assoc.
      * split.
        { rewrite <- app_assoc. apply elem_of_app. right. apply list_elem_of_here. }
        right. right. split; [done|]. split; [done|]. split; [done|].
        split; [done|]. by rewrite <- app_assoc.
    + simpl. split.
      { apply elem_of_app. right. apply list_elem_of_here. }
      left. by split_and!.
  - intros b inv rest Hs E. unfold step, on_loaded. rewrite E. simpl. rewrite Hs.
    unfold executeJavaScriptMethodObservable, log, push. simpl. by split_and!.
  - intros r o k rest inv qs Hs E Hq. unfold step, on_reply. rewrite E. simpl.
    rewrite Hs. unfold merge_inner_completed, subscriber_onNext, push. simpl.
    rewrite Hq. simpl. unfold handleSubscribe, getOrCreateWindow. simpl.
    rewrite pop_snoc. unfold executeJavaScriptMethodObservable, log, push. simpl.
    rewrite <- !app_assoc. by split_and!.
  - apply (chain_provenance path max es).
  - apply (chain_provenance path max es).
  - intros c a. reflexivity.
Qed.

(** ** The configuration, as the code has it *)

(** A pool whose limit is 0 or less: nothing ever holds a slot, and every
    call made so far waits in the queue, its future pending. *)
Definition starved (s : Pool) : Prop :=
  isStopped s = false /\ activeCount s = 0%nat
  /\ running s = [] /\ loading s = []
  /\ starts (trace s) = [] /\ settlements (trace s) = []
  /\ map retval (q s) = submissions (trace s)
  /\ forall r, (r < nextRetval s)%nat -> retvals s !! r = Some Pending.

Lemma submissions_app tr1 tr2 :
  submissions (tr1 ++ tr2) = submissions tr1 ++ submissions tr2.
Proof. unfold submissions. apply omap_app. Qed.

Lemma starved_step s e : maxConcurrency s <= 0 -> starved s -> starved (step s e).
Proof.
  intros Hm (Hs & Ha & Hr & Hl & Hst & Hse & Hq & Hp).
  assert (forall r o s', starved s' -> on_reply r o s' = s') as Hreply.
  { intros r o s' (_ & _ & Hr' & _). unfold on_reply. by rewrite Hr'. }
  destruct e as [c a|b f|r o|]; unfold step.
  - destruct (moduleProxy_cases c a s) as [Hs'|_ Hlt|_ Hge]; [congruence|lia|].
    unfold starved. simpl.
    rewrite starts_app, settlements_app, submissions_app, map_app, Hst, Hse, Hq.
    simpl. split_and!; [done..|].
    intros r Hlt. destruct (decide (r = nextRetval s)) as [->|Hne].
    + apply lookup_insert_eq.
    + rewrite lookup_insert_ne by done. apply Hp. lia.
  - unfold on_loaded. rewrite Hl. simpl. by split_and!.
  - rewrite Hreply; by split_and!.
  - apply tick_invariant.
    + by split_and!.
    + intros r s' H'. by rewrite Hreply.
    + intros s' (Hs' & Ha' & Hr' & Hl' & Hst' & Hse' & Hq' & Hp').
      rewrite reap_spec. unfold starved. simpl.
      change (?x :: ?l) with ([x] ++ l).
      rewrite !starts_app, !settlements_app, !submissions_app, starts_disposals,
        settlements_disposals, submissions_disposals, Hst', Hse'.
      simpl. rewrite !app_nil_r. by split_and!.
Qed.

Lemma starved_run path n es :
  n <= 0 -> starved (run (RendererTaskpoolItem path n) es).
Proof.
  intros Hn.
  assert (starved (run (RendererTaskpoolItem path n) es)
          /\ maxConcurrency (run (RendererTaskpoolItem path n) es) <= 0) as [? _];
    [|done].
  apply (run_invariant (fun s => starved s /\ maxConcurrency s <= 0)).
  - intros s e [H1 H2]. split; [by apply starved_step|].
    by rewrite maxConcurrency_step.
  - split; [|done]. split_and!; try done. intros r Hr. simpl in Hr. lia.
Qed.

(** C8, as the code has it. [requireTaskPool] takes [maxConcurrency] as
    its only setting: it is 4 when the argument is omitted and otherwise
    the number given, whatever it is, since nothing checks that it is
    positive; no step changes it, and with a limit of 0 or less no
    invocation is ever started: every call waits in the queue, its future
    pending. The quiet interval of the reaper is not a setting: it is the
    constant 5000 of the source, and in every pool, whatever its
    arguments, each firing of the reaper comes 5000 milliseconds after the
    last completion. *)
Theorem configuration_as_coded path :
  maxConcurrency (requireTaskPool path None) = 4
  /\ (forall n es, maxConcurrency (run (requireTaskPool path (Some n)) es) = n)
  /\ (forall n es,
        n <= 0 ->
        let s := run (requireTaskPool path (Some n)) es in
        starts (trace s) = [] /\ settlements (trace s) = []
        /\ map retval (q s) = submissions (trace s)
        /\ forall r, r ∈ submissions (trace s) -> retvals s !! r = Some Pending)
  /\ idleReapIntervalMs = 5000
  /\ (forall n es pre t post,
        trace (run (requireTaskPool path n) es) = pre ++ (t, OReap) :: post ->
        exists pre1 w pre2,
          pre = pre1 ++ (t - 5000, OCompletion w) :: pre2 /\ quiet pre2)
  /\ (let s := run (requireTaskPool path None)
                 (replicate 5 (Invoke ["m"; "f"]%string [])) in
      length (loading s) = 4%nat /\ length (q s) = 1%nat)
  /\ (let s := run (requireTaskPool path None)
                 [Invoke ["m"; "f"]%string []; Loaded 0 None;
                  Reply 0 (Returned VUndefined)] in
      throttle s = Some 5000
      /\ freeWindowList (run s (ticks 4999)) = [mkWnd 0]
      /\ freeWindowList (run s (ticks 5000)) = []).
Proof.
  destruct (configuration_defaults path) as (D1 & D2 & D3 & D4 & D5 & D6).
  split; [done|]. split; [|split; [|split; [done|split; [|split; [done|done]]]]].
  - intros n es. by rewrite D3.
  - intros n es Hn s.
    assert (starved s) as (Hs & Ha & Hr & Hl & Hst & Hse & Hq & Hp)
      by by apply (starved_run path n es).
    assert (fresh_ok s) as [_ Hlt] by apply (fresh_ok_run path n es).
    rewrite Forall_forall in Hlt.
    split_and!; [done..|]. intros r Hr'. by apply Hp, Hlt.
  - intros n es pre t post E.
    destruct (reap_ok_run path (default defaultMaxConcurrency n) es) as (_ & H2 & _).
    unfold requireTaskPool in E. rewrite E in H2.
    apply reaps_ok_app in H2 as [_ H2]. simpl in H2.
    destruct H2 as [H2 _]. specialize (H2 eq_refl).
    apply armed_Some in H2. exact H2.
Qed.

(** A limit of 0, and a negative one, are accepted as given: the pool
    takes the calls and never starts any of them. *)
Lemma nonpositive_limit_accepted :
  let s0 := run (requireTaskPool "m" (Some 0))
              (replicate 3 (Invoke ["m"; "f"]%string []) ++ ticks 100) in
  let s1 := run (requireTaskPool "m" (Some (-3)))
              (replicate 3 (Invoke ["m"; "f"]%string []) ++ ticks 100) in
  maxConcurrency s0 = 0 /\ starts (trace s0) = [] /\ length (q s0) = 3%nat
  /\ nextBw s0 = 0%nat /\ retvals s0 !! 0%nat = Some Pending
  /\ maxConcurrency s1 = -3 /\ starts (trace s1) = [] /\ length (q s1) = 3%nat
  /\ nextBw s1 = 0%nat /\ retvals s1 !! 0%nat = Some Pending.
Proof. vm_compute. done. Qed.
(** * Further properties of the pool *)

(** ** The loop of the reaper *)

(** X1. The loop [while (freeWindowList.length > 0) { pop; dispose }]
    stops by itself: it runs once per window of the stack, whatever the
    bound on its iterations beyond that, disposes the windows from the
    top of the stack down, and leaves the stack empty and everything else
    as it was. *)
Theorem burn_terminates s k :
  burn (length (freeWindowList s) + k) s = burn (length (freeWindowList s)) s
  /\ freeWindowList (burn (length (freeWindowList s)) s) = []
  /\ trace (burn (length (freeWindowList s)) s)
     = trace s ++ map (fun w => (now s, ODispose w)) (reverse (freeWindowList s))
  /\ burn (length (freeWindowList s)) s
     = set_trace (set_freeWindowList s [])
         (trace (burn (length (freeWindowList s)) s)).
Proof.
  assert (forall n s', freeWindowList s' = [] -> burn n s' = s') as Hempty.
  { intros n s' E. destruct n; [done|]. simpl. by rewrite E. }
  assert (forall n m s', n = length (freeWindowList s') -> burn (n + m) s' = burn m (burn n s')) as Hadd.
  { induction n as [|n IH]; intros m s' Hn; [done|].
    simpl. destruct (pop_spec (freeWindowList s')) as [E|l' x E].
    - rewrite E in Hn. done.
    - apply IH. simpl. rewrite E, length_app in Hn. simpl in Hn. lia. }
  rewrite Hadd by done. rewrite (burn_spec _ s) by done. simpl.
  split_and!; [|done..]. by apply Hempty.
Qed.

(** ** No slot is left idle *)

(** While the pipeline is subscribed, the count of the merge is exactly
    the number of invocations whose window is loading or whose call is
    running. *)
Definition tight (s : Pool) : Prop :=
  isStopped s = false -> busy s = activeCount s.

Lemma busy_handleSubscribe inv s :
  busy (handleSubscribe inv s) = S (busy s)
  /\ activeCount (handleSubscribe inv s) = activeCount s
  /\ isStopped (handleSubscribe inv s) = isStopped s.
Proof.
  destruct (handleSubscribe_cases inv s) as [(l & w & E & ->)|[E ->]];
    unfold busy; simpl; rewrite length_app; simpl; (split; [lia|done]).
Qed.

Lemma tight_on_reply r o s : tight s -> tight (on_reply r o s).
Proof.
  intros H.
  destruct (on_reply_cases r o s) as
    [H0|c l1 l2 E Hc Hnin Hs|c l1 l2 E Hc Hnin Hs Hq|c l1 l2 inv qs E Hc Hnin Hs Hq];
    [done|..].
  - intros Hs'. simpl in Hs'. congruence.
  - intros _. specialize (H Hs). unfold busy in *. simpl.
    rewrite E, !length_app in *. simpl in *. lia.
  - intros _. specialize (H Hs).
    match goal with |- busy (handleSubscribe ?i ?s0) = _ =>
      destruct (busy_handleSubscribe i s0) as (-> & -> & _) end.
    unfold busy in *. simpl. rewrite E, !length_app in *. simpl in *. lia.
Qed.

Lemma tight_step s e : tight s -> tight (step s e).
Proof.
  intros H. destruct e as [c a|b f|r o|]; unfold step.
  - destruct (moduleProxy_cases c a s) as [Hs|Hs Hlt|Hs Hge].
    + intros Hs'. simpl in Hs'. congruence.
    + intros _. specialize (H Hs).
      match goal with |- busy (handleSubscribe ?i ?s0) = _ =>
        destruct (busy_handleSubscribe i s0) as (-> & -> & _) end.
      unfold busy in *. simpl. lia.
    + intros _. by apply H.
  - destruct (on_loaded_cases b f s) as
      [H0|inv l1 l2 E Hs|inv l1 l2 msg E Hs Hf|inv l1 l2 E Hs Hf]; [done|..].
    + intros Hs'. simpl in Hs'. congruence.
    + intros Hs'. simpl in Hs'. congruence.
    + intros _. specialize (H Hs). unfold busy in *. simpl.
      rewrite E, !length_app in *. simpl in *. lia.
  - by apply tight_on_reply.
  - apply tick_invariant.
    + exact H.
    + intros. by apply tight_on_reply.
    + intros s' H'. by rewrite reap_spec.
Qed.

(** X2. The merge wastes no slot: while the pipeline is subscribed, its
    count of active invocations is exactly the number of invocations that
    hold or await a window, and an invocation waits in the queue only
    while that number has reached [maxConcurrency]. *)
Theorem work_conserving path max es :
  let s := run (RendererTaskpoolItem path max) es in
  (isStopped s = false -> busy s = activeCount s)
  /\ (isStopped s = false -> q s <> [] -> max <= Z.of_nat (busy s)).
Proof.
  intros s.
  assert (tight s) as Ht.
  { apply (run_invariant tight); [apply tight_step|done]. }
  assert (fifo_ok s) as [Hf _].
  { apply (run_invariant fifo_ok); [apply fifo_ok_step|].
    split; simpl; [by left|]. by exists []. }
  assert (maxConcurrency s = max) as Hm by apply maxConcurrency_run.
  split; [exact Ht|].
  intros Hs Hq. rewrite (Ht Hs). destruct (Hf Hs) as [?|?]; [done|lia].
Qed.
(** ** Where a window is *)

(** The windows the reaper disposed, in the order it did. *)
Definition disposals (tr : list (Z * Obs)) : list Wnd :=
  omap (fun x => match snd x with ODispose w => Some w | _ => None end) tr.

(** The windows on the stack, those serving a call, those loading and
    those that were disposed. *)
Definition places (s : Pool) : list nat :=
  map bw (freeWindowList s) ++ map (fun c => bw (c_wnd c)) (running s)
    ++ map fst (loading s) ++ map bw (disposals (trace s)).

(** No window is in two places, and every one was created by the pool. *)
Definition wnd_ok (s : Pool) : Prop :=
  NoDup (places s) /\ forall b, b ∈ places s -> (b < nextBw s)%nat.

Lemma disposals_app tr1 tr2 :
  disposals (tr1 ++ tr2) = disposals tr1 ++ disposals tr2.
Proof. unfold disposals. apply omap_app. Qed.

Lemma disposals_disposals (l : list Wnd) t :
  disposals (map (fun w => (t, ODispose w)) l) = l.
Proof. induction l as [|w l IH]; [done|]. simpl. by rewrite IH. Qed.

Lemma wnd_ok_perm s s' d :
  places s ≡ₚ d ++ places s' -> (nextBw s <= nextBw s')%nat ->
  wnd_ok s -> wnd_ok s'.
Proof.
  intros Hp Hn [H1 H2]. split.
  - rewrite Hp in H1. by apply NoDup_app in H1 as (_ & _ & ?).
  - intros r Hr. assert (r ∈ places s) as Hin.
    { rewrite Hp. apply elem_of_app. by right. }
    apply H2 in Hin. lia.
Qed.

Lemma wnd_ok_handleSubscribe inv s : wnd_ok s -> wnd_ok (handleSubscribe inv s).
Proof.
  intros [H1 H2].
  destruct (handleSubscribe_cases inv s) as [(l & w & E & ->)|[E ->]].
  - apply (wnd_ok_perm s _ []); [|done|done].
    unfold places. simpl. rewrite E, !disposals_app, !map_app. simpl.
    rewrite app_nil_r. perm_mid.
  - assert (places (set_loading
              (set_nextBw
                 (set_trace s
                    (trace s ++ [(now s, OStart (retval inv));
                                 (now s, OSpawn (nextBw s) (retval inv))]))
                 (S (nextBw s)))
              (loading s ++ [(nextBw s, inv)])) ≡ₚ nextBw s :: places s) as Hp.
    { unfold places. simpl. rewrite !disposals_app, !map_app. simpl.
      rewrite app_nil_r. perm_mid. }
    split.
    + rewrite Hp. apply NoDup_cons. split; [|done].
      intros Hin. apply H2 in Hin. lia.
    + intros b Hb. rewrite Hp in Hb. simpl.
      apply elem_of_cons in Hb as [->|Hb]; [lia|]. apply H2 in Hb. lia.
Qed.

Lemma wnd_ok_set_q s l : wnd_ok s -> wnd_ok (set_q s l).
Proof. intros H. exact H. Qed.

Lemma wnd_ok_set_activeCount s n : wnd_ok s -> wnd_ok (set_activeCount s n).
Proof. intros H. exact H. Qed.

(** The answer of a call, then its window back on the stack. *)
Lemma wnd_ok_returned r o c l1 l2 s :
  running s = l1 ++ c :: l2 -> wnd_ok s ->
  wnd_ok (completed (c_wnd c) (settled r o (l1 ++ l2) s)).
Proof.
  intros E. apply (wnd_ok_perm s _ []); [|done].
  unfold places. simpl. rewrite E, !disposals_app, !map_app. simpl.
  rewrite !app_nil_r. perm_mid.
Qed.

Lemma wnd_ok_on_reply r o s : wnd_ok s -> wnd_ok (on_reply r o s).
Proof.
  intros H.
  destruct (on_reply_cases r o s) as
    [H0|c l1 l2 E Hc Hnin Hs|c l1 l2 E Hc Hnin Hs Hq|c l1 l2 inv qs E Hc Hnin Hs Hq];
    [done|..].
  - revert H. apply (wnd_ok_perm s _ [bw (c_wnd c)]); [|done].
    unfold places. simpl. rewrite E, !disposals_app, !map_app. simpl.
    rewrite !app_nil_r. perm_mid.
  - by apply wnd_ok_set_activeCount, wnd_ok_returned.
  - by apply wnd_ok_handleSubscribe, wnd_ok_set_q, wnd_ok_returned.
Qed.

Lemma wnd_ok_on_loaded b f s : wnd_ok s -> wnd_ok (on_loaded b f s).
Proof.
  destruct (on_loaded_cases b f s) as
    [H0|inv l1 l2 E Hs|inv l1 l2 msg E Hs Hf|inv l1 l2 E Hs Hf]; [done|..].
  - apply (wnd_ok_perm s _ [b]); [|done].
    unfold places. simpl. rewrite E, !map_app. simpl. perm_mid.
  - apply (wnd_ok_perm s _ [b]); [|done].
    unfold places. simpl. rewrite E, !disposals_app, !map_app. simpl.
    rewrite !app_nil_r. perm_mid.
  - apply (wnd_ok_perm s _ []); [|done].
    unfold places. simpl. rewrite E, !disposals_app, !map_app. simpl.
    rewrite !app_nil_r. perm_mid.
Qed.

Lemma wnd_ok_moduleProxy c a s : wnd_ok s -> wnd_ok (snd (moduleProxy c a s)).
Proof.
  intros H.
  assert (forall s', trace s' = trace s ++ [(now s, OQueue c a (nextRetval s))] ->
                     freeWindowList s' = freeWindowList s ->
                     running s' = running s -> loading s' = loading s ->
                     nextBw s' = nextBw s -> wnd_ok s') as Hq.
  { intros s' Et Ef Er El En. revert H. apply (wnd_ok_perm s _ []); [|by rewrite En].
    unfold places. rewrite Et, Ef, Er, El, disposals_app. simpl.
    by rewrite app_nil_r. }
  destruct (moduleProxy_cases c a s) as [Hs|Hs Hlt|Hs Hge].
  - by apply Hq.
  - apply wnd_ok_handleSubscribe. by apply Hq.
  - by apply Hq.
Qed.

Lemma disposals_reap tr t (l : list Wnd) :
  disposals (tr ++ (t, OReap) :: map (fun w => (t, ODispose w)) l) = disposals tr ++ l.
Proof.
  change (?x :: ?k) with ([x] ++ k).
  by rewrite !disposals_app, disposals_disposals.
Qed.

Lemma wnd_ok_reap s : wnd_ok s -> wnd_ok (reap s).
Proof.
  rewrite reap_spec. apply (wnd_ok_perm s _ []); [|done].
  unfold places. simpl. rewrite disposals_reap, map_app, reverse_Permutation.
  rewrite (Permutation_app_comm (map bw (freeWindowList s))).
  by rewrite <- !app_assoc.
Qed.

Lemma wnd_ok_step s e : wnd_ok s -> wnd_ok (step s e).
Proof.
  destruct e as [c a|b f|r o|]; unfold step.
  - apply wnd_ok_moduleProxy.
  - apply wnd_ok_on_loaded.
  - apply wnd_ok_on_reply.
  - intros H. apply tick_invariant.
    + exact H.
    + intros. by apply wnd_ok_on_reply.
    + intros. by apply wnd_ok_reap.
Qed.

(** X3. A window is never in two places: the windows on the stack of free
    windows, those serving a call, those still loading and those the
    reaper disposed are pairwise distinct and were all created by the
    pool. So no window serves two calls at once, a window that serves a
    call is not on the stack, and a disposed window is neither used again
    nor disposed twice. *)
Theorem window_exclusive path max es :
  let s := run (RendererTaskpoolItem path max) es in
  NoDup (places s)
  /\ (forall b, b ∈ places s -> (b < nextBw s)%nat)
  /\ NoDup (map c_wnd (running s))
  /\ NoDup (disposals (trace s))
  /\ (forall c w, c ∈ running s ->
        w ∈ freeWindowList s \/ w ∈ disposals (trace s) -> c_wnd c <> w).
Proof.
  intros s.
  assert (wnd_ok s) as [Hnd Hlt].
  { apply (run_invariant wnd_ok); [apply wnd_ok_step|].
    split; [constructor|]. intros b Hb. by apply elem_of_nil in Hb. }
  split; [done|]. split; [done|].
  unfold places in Hnd.
  apply NoDup_app in Hnd as (Hf & Hfr & Hnd).
  apply NoDup_app in Hnd as (Hr & Hrl & Hnd).
  apply NoDup_app in Hnd as (Hl & Hld & Hd).
  split_and!.
  - apply (NoDup_fmap_1 bw). by rewrite <- list_fmap_compose.
  - by apply (NoDup_fmap_1 bw).
  - intros c w Hc [Hw|Hw] Heq.
    + apply (Hfr (bw w)); [by apply list_elem_of_fmap_2|].
      apply elem_of_app. left. rewrite <- Heq.
      by apply (list_elem_of_fmap_2 (fun c => bw (c_wnd c))).
    + apply (Hrl (bw w)).
      * rewrite <- Heq. by apply (list_elem_of_fmap_2 (fun c => bw (c_wnd c))).
      * apply elem_of_app. right. by apply list_elem_of_fmap_2.
Qed.
(** ** How many windows there are *)

(** While the pipeline is subscribed, every window created is on the
    stack, loading, serving a call, or was disposed; and at any time the
    windows created and not disposed number at most [maxConcurrency]. *)
Definition census_ok (s : Pool) : Prop :=
  (isStopped s = false ->
   nextBw s = (length (freeWindowList s) + busy s
               + length (disposals (trace s)))%nat)
  /\ Z.of_nat (nextBw s)
     <= maxConcurrency s + Z.of_nat (length (disposals (trace s))).

Lemma census_ok_handleSubscribe inv s :
  (S (busy s) <= activeCount s)%nat ->
  Z.of_nat (activeCount s) <= maxConcurrency s ->
  isStopped s = false ->
  census_ok s -> census_ok (handleSubscribe inv s).
Proof.
  intros Hb Hm Hs [H1 H2]. specialize (H1 Hs). unfold busy in *.
  destruct (handleSubscribe_cases inv s) as [(l & w & E & ->)|[E ->]];
    unfold census_ok, busy; simpl; rewrite !disposals_app; simpl;
    rewrite E, ?length_app, ?app_nil_r in *; simpl in *; split; lia.
Qed.

Lemma census_ok_on_reply r o s :
  slots_ok s -> census_ok s -> census_ok (on_reply r o s).
Proof.
  intros [Hb Hm] [H1 H2]. unfold busy in *.
  destruct (on_reply_cases r o s) as
    [H0|c l1 l2 E Hc Hnin Hs|c l1 l2 E Hc Hnin Hs Hq|c l1 l2 inv qs E Hc Hnin Hs Hq];
    [done|..].
  - unfold census_ok. simpl. rewrite disposals_app. simpl. rewrite app_nil_r.
    split; [congruence|done].
  - specialize (H1 Hs). unfold census_ok, busy. simpl.
    rewrite !disposals_app. simpl. rewrite !app_nil_r.
    rewrite E, !length_app in *. simpl in *. split; lia.
  - specialize (H1 Hs). rewrite E, !length_app in *. simpl in *.
    apply census_ok_handleSubscribe; unfold census_ok, busy; simpl;
      rewrite ?disposals_app; simpl; rewrite ?app_nil_r, ?length_app; simpl;
      try split; try done; lia.
Qed.

Lemma census_ok_step s e : slots_ok s -> census_ok s -> census_ok (step s e).
Proof.
  intros Hsl Hc. destruct e as [c a|b f|r o|]; unfold step.
  - destruct Hsl as [Hb Hm]. destruct Hc as [H1 H2].
    destruct (moduleProxy_cases c a s) as [Hs|Hs Hlt|Hs Hge].
    + unfold census_ok. simpl. rewrite disposals_app. simpl. rewrite app_nil_r.
      split; [congruence|done].
    + specialize (H1 Hs).
      apply census_ok_handleSubscribe; unfold census_ok, busy in *; simpl;
        rewrite ?disposals_app; simpl; rewrite ?app_nil_r; try split; try done; lia.
    + unfold census_ok, busy in *. simpl. rewrite disposals_app. simpl.
      rewrite app_nil_r. by split.
  - destruct Hc as [H1 H2]. unfold busy in *.
    destruct (on_loaded_cases b f s) as
      [H0|inv l1 l2 E Hs|inv l1 l2 msg E Hs Hf|inv l1 l2 E Hs Hf]; [done|..].
    + unfold census_ok. simpl. split; [congruence|done].
    + unfold census_ok. simpl. rewrite disposals_app. simpl. rewrite app_nil_r.
      split; [congruence|done].
    + specialize (H1 Hs). unfold census_ok, busy. simpl.
      rewrite disposals_app. simpl. rewrite app_nil_r.
      rewrite E, !length_app in *. simpl in *. split; lia.
  - by apply census_ok_on_reply.
  - assert (slots_ok (tick s) /\ census_ok (tick s)) as [_ ?]; [|done].
    apply (tick_invariant (fun s' => slots_ok s' /\ census_ok s')).
    + done.
    + intros r s' [? ?]. split; [by apply slots_ok_on_reply|by apply census_ok_on_reply].
    + intros s' [Hsl' [H1 H2]]. rewrite reap_spec. split; [done|].
      unfold census_ok, busy in *. simpl. rewrite disposals_reap, length_app, length_reverse.
      split; [intros Hs; specialize (H1 Hs)|]; lia.
Qed.

(** X4. The pool never holds more than [maxConcurrency] windows: the
    windows it created and has not disposed number at most
    [maxConcurrency], and while the pipeline is subscribed each of them is
    on the stack, loading or serving a call. *)
Theorem windows_bounded path max es :
  0 <= max ->
  let s := run (RendererTaskpoolItem path max) es in
  Z.of_nat (nextBw s) - Z.of_nat (length (disposals (trace s))) <= max
  /\ (isStopped s = false ->
      nextBw s = (length (freeWindowList s) + busy s
                  + length (disposals (trace s)))%nat).
Proof.
  intros Hmax s.
  assert (slots_ok s /\ census_ok s) as [_ [H1 H2]].
  { apply (run_invariant (fun s' => slots_ok s' /\ census_ok s')).
    - intros s0 e [? ?]. split; [by apply slots_ok_step|by apply census_ok_step].
    - split; split; simpl; try done; unfold busy; simpl; lia. }
  assert (maxConcurrency s = max) as Hm by apply maxConcurrency_run.
  split; [lia|done].
Qed.

(** With two slots and five calls, two windows are created and serve all
    five calls. *)
Lemma windows_bounded_witness :
  0 <= 2 /\
  let s := run (RendererTaskpoolItem "m" 2)
             (replicate 5 (Invoke ["m"; "f"]%string [])
              ++ [Loaded 0 None; Loaded 1 None; Reply 0 (Returned VUndefined);
                  Reply 1 (Returned VUndefined); Reply 2 (Returned VUndefined)]) in
  Z.of_nat (nextBw s) - Z.of_nat (length (disposals (trace s))) <= 2
  /\ (isStopped s = false ->
      nextBw s = (length (freeWindowList s) + busy s
                  + length (disposals (trace s)))%nat).
Proof.
  split; [lia|].
  apply (windows_bounded "m" 2
           (replicate 5 (Invoke ["m"; "f"]%string [])
            ++ [Loaded 0 None; Loaded 1 None; Reply 0 (Returned VUndefined);
                Reply 1 (Returned VUndefined); Reply 2 (Returned VUndefined)])).
  lia.
Defined.
(** ** After the pipeline is disposed *)

(** What holds of a state [s] reached from [s0], where the subscription of
    the pipeline was already disposed. *)
Definition halted (s0 s : Pool) : Prop :=
  isStopped s = true
  /\ starts (trace s) = starts (trace s0)
  /\ q s = q s0 /\ nextBw s = nextBw s0
  /\ (length (freeWindowList s) <= length (freeWindowList s0))%nat
  /\ (forall c, c ∈ running s -> c ∈ running s0)
  /\ (forall r, r ∈ settlements (trace s) ->
        r ∈ settlements (trace s0) \/ r ∈ map call_id (running s0))
  /\ (nextRetval s0 <= nextRetval s)%nat
  /\ (forall r, (nextRetval s0 <= r < nextRetval s)%nat ->
        retvals s !! r = Some Pending).

Lemma halted_on_reply s0 r o s :
  Forall (fun c => (call_id c < nextRetval s0)%nat) (running s0) ->
  halted s0 s -> halted s0 (on_reply r o s).
Proof.
  intros Hlt (Hs & Hst & Hq & Hb & Hf & Hr & Hse & Hn & Hp).
  destruct (on_reply_cases r o s) as
    [H0|c l1 l2 E Hc Hnin _|c l1 l2 E Hc Hnin Hs' Hq'|c l1 l2 inv qs E Hc Hnin Hs' Hq'];
    [done| |congruence..].
  assert (c ∈ running s0) as Hc0.
  { apply Hr. rewrite E. apply elem_of_app. right. apply list_elem_of_here. }
  unfold halted. simpl. rewrite starts_app, settlements_app. simpl.
  rewrite app_nil_r. split_and!; [done..| | |done|].
  - intros k Hk. apply Hr. rewrite E.
    apply elem_of_app in Hk as [?|?]; apply elem_of_app; [by left|].
    right. by apply list_elem_of_further.
  - intros r' Hr'. apply elem_of_app in Hr' as [?|Hr']; [by apply Hse|].
    apply list_elem_of_singleton in Hr' as ->. right. rewrite <- Hc.
    by apply list_elem_of_fmap_2.
  - intros r' Hr'. rewrite lookup_insert_ne; [by apply Hp|].
    rewrite Forall_forall in Hlt. apply Hlt in Hc0. lia.
Qed.

Lemma halted_step s0 s e :
  Forall (fun c => (call_id c < nextRetval s0)%nat) (running s0) ->
  halted s0 s -> halted s0 (step s e).
Proof.
  intros Hlt H. destruct e as [c a|b f|r o|]; unfold step.
  - destruct H as (Hs & Hst & Hq & Hb & Hf & Hr & Hse & Hn & Hp).
    destruct (moduleProxy_cases c a s) as [_|Hs'|Hs']; [|congruence..].
    unfold halted. simpl. rewrite starts_app, settlements_app. simpl.
    rewrite !app_nil_r. split_and!; [done..|lia|].
    intros r' Hr'. destruct (decide (r' = nextRetval s)) as [->|Hne].
    + apply lookup_insert_eq.
    + rewrite lookup_insert_ne by done. apply Hp. lia.
  - destruct H as (Hs & Hst & Hq & Hb & Hf & Hr & Hse & Hn & Hp).
    destruct (on_loaded_cases b f s) as
      [H0|inv l1 l2 E _|inv l1 l2 msg E Hs' Hf'|inv l1 l2 E Hs' Hf'];
      [by split_and!|by split_and!|congruence..].
  - by apply halted_on_reply.
  - apply tick_invariant.
    + exact H.
    + intros. by apply halted_on_reply.
    + intros s' (Hs & Hst & Hq & Hb & Hf & Hr & Hse & Hn & Hp).
      rewrite reap_spec. unfold halted. simpl.
      change (?x :: ?l) with ([x] ++ l).
      rewrite !starts_app, !settlements_app, starts_disposals, settlements_disposals.
      simpl. rewrite !app_nil_r. split_and!; [done..|lia|done|done|done|done].
Qed.

(** X5. Once the subscription of the pipeline is disposed it stays so,
    whatever happens: no invocation is started any more, the queue is as it
    was and no window is created or put back on the stack; the only futures
    that are settled are those of the calls that were running, and every
    future handed out afterwards stays pending. *)
Theorem stopped_forever path max es0 es :
  let s0 := run (RendererTaskpoolItem path max) es0 in
  let s := run s0 es in
  isStopped s0 = true ->
  isStopped s = true
  /\ starts (trace s) = starts (trace s0)
  /\ q s = q s0 /\ nextBw s = nextBw s0
  /\ (length (freeWindowList s) <= length (freeWindowList s0))%nat
  /\ (forall r, r ∈ settlements (trace s) ->
        r ∈ settlements (trace s0) \/ r ∈ map call_id (running s0))
  /\ (forall r, (nextRetval s0 <= r < nextRetval s)%nat ->
        retvals s !! r = Some Pending).
Proof.
  intros s0 s Hs0.
  assert (Forall (fun c => (call_id c < nextRetval s0)%nat) (running s0)) as Hlt.
  { destruct (lin_ok_run path max es0) as [_ Hlt]. fold s0 in Hlt.
    apply Forall_forall. intros c Hc. apply Hlt. unfold owners.
    apply elem_of_app. right. apply elem_of_app. left.
    by apply list_elem_of_fmap_2. }
  assert (halted s0 s) as (Hs & Hst & Hq & Hb & Hf & Hr & Hse & Hn & Hp).
  { apply (run_invariant (halted s0)).
    - intros s1 e. by apply halted_step.
    - split_and!; try done. + by left. + lia. }
  by split_and!.
Qed.

(** Two calls; the second window fails to load while the first call is
    running: the answer of the first call still settles its future, the
    window is lost, and a third call is never started. *)
Lemma stopped_forever_witness :
  let s0 := run (RendererTaskpoolItem "m" 4)
              [Invoke ["m"; "f"]%string []; Invoke ["m"; "g"]%string [];
               Loaded 0 None; Loaded 1 (Some "boom"%string)] in
  let s := run s0 [Invoke ["m"; "h"]%string []; Reply 0 (Returned (VNum 1)); Tick] in
  isStopped s0 = true
  /\ isStopped s = true
  /\ starts (trace s) = starts (trace s0)
  /\ q s = q s0 /\ nextBw s = nextBw s0
  /\ (length (freeWindowList s) <= length (freeWindowList s0))%nat
  /\ (forall r, r ∈ settlements (trace s) ->
        r ∈ settlements (trace s0) \/ r ∈ map call_id (running s0))
  /\ (forall r, (nextRetval s0 <= r < nextRetval s)%nat ->
        retvals s !! r = Some Pending).
Proof.
  split; [reflexivity|].
  apply (stopped_forever "m" 4
           [Invoke ["m"; "f"]%string []; Invoke ["m"; "g"]%string [];
            Loaded 0 None; Loaded 1 (Some "boom"%string)]
           [Invoke ["m"; "h"]%string []; Reply 0 (Returned (VNum 1)); Tick]).
  reflexivity.
Defined.
(** ** The life of an invocation *)

(** The [retval]s of the remote calls that were sent, in the order they
    were. *)
Definition invocations (tr : list (Z * Obs)) : list nat :=
  omap (fun x => match snd x with OInvoke _ _ _ _ r => Some r | _ => None end) tr.

Lemma invocations_app tr1 tr2 :
  invocations (tr1 ++ tr2) = invocations tr1 ++ invocations tr2.
Proof. unfold invocations. apply omap_app. Qed.

Lemma invocations_disposals (l : list Wnd) t :
  invocations (map (fun w => (t, ODispose w)) l) = [].
Proof. by induction l. Qed.

Lemma settlements_reap t (l : list Wnd) :
  settlements ((t, OReap) :: map (fun w => (t, ODispose w)) l) = [].
Proof. apply settlements_disposals. Qed.

Lemma invocations_reap t (l : list Wnd) :
  invocations ((t, OReap) :: map (fun w => (t, ODispose w)) l) = [].
Proof. apply invocations_disposals. Qed.

(** A settled [retval] is that of a call that was sent, a call is sent
    only for an invocation that was started, and so are the windows that
    load created. *)
Definition life_ok (s : Pool) : Prop :=
  (forall r, r ∈ settlements (trace s) -> r ∈ invocations (trace s))
  /\ (forall c, c ∈ running s -> call_id c ∈ invocations (trace s))
  /\ (forall r, r ∈ invocations (trace s) -> r ∈ starts (trace s))
  /\ (forall x, x ∈ loading s -> retval (snd x) ∈ starts (trace s)).

(** The record grows by [l], in which [sent] are sent and [started]
    started. *)
Lemma life_ok_grow s s' l :
  life_ok s -> trace s' = trace s ++ l ->
  (forall r, r ∈ settlements l -> exists c, c ∈ running s /\ call_id c = r) ->
  (forall c, c ∈ running s' -> c ∈ running s \/ call_id c ∈ invocations l) ->
  (forall r, r ∈ invocations l ->
     r ∈ starts l \/ exists x, x ∈ loading s /\ retval (snd x) = r) ->
  (forall x, x ∈ loading s' -> x ∈ loading s \/ retval (snd x) ∈ starts l) ->
  life_ok s'.
Proof.
  intros (H1 & H2 & H3 & H4) Et Hse Hr Hi Hl. unfold life_ok.
  rewrite Et, settlements_app, invocations_app, starts_app. split_and!.
  - intros r [Hin|Hin]%elem_of_app; apply elem_of_app; left; [by apply H1|].
    destruct (Hse r Hin) as (c & Hc & <-). by apply H2.
  - intros c Hc. apply elem_of_app. destruct (Hr c Hc) as [?|?]; [left|by right].
    by apply H2.
  - intros r [Hin|Hin]%elem_of_app; apply elem_of_app; [left; by apply H3|].
    destruct (Hi r Hin) as [?|(x & Hx & <-)]; [by right|left; by apply H4].
  - intros x Hx. apply elem_of_app. destruct (Hl x Hx) as [?|?]; [left|by right].
    by apply H4.
Qed.

Ltac nil_elem :=
  match goal with
  | H : _ ∈ [] |- _ => by apply elem_of_nil in H
  | H : _ ∈ @nil _ |- _ => by apply elem_of_nil in H
  end.

Lemma life_ok_handleSubscribe inv s : life_ok s -> life_ok (handleSubscribe inv s).
Proof.
  intros H.
  destruct (handleSubscribe_cases inv s) as [(fl & w & E & ->)|[E ->]];
    (eapply life_ok_grow; [exact H|done|..]); simpl.
  - intros r Hr. nil_elem.
  - intros c [Hc|Hc]%elem_of_app; [by left|right].
    apply list_elem_of_singleton in Hc as ->. apply list_elem_of_here.
  - intros r Hr. left. exact Hr.
  - intros x Hx. by left.
  - intros r Hr. nil_elem.
  - intros c Hc. by left.
  - intros r Hr. nil_elem.
  - intros x [Hx|Hx]%elem_of_app; [by left|right].
    apply list_elem_of_singleton in Hx as ->. apply list_elem_of_here.
Qed.

Lemma life_ok_set_q s l : life_ok s -> life_ok (set_q s l).
Proof. intros H. exact H. Qed.

Lemma life_ok_set_activeCount s n : life_ok s -> life_ok (set_activeCount s n).
Proof. intros H. exact H. Qed.

Lemma life_ok_settled r o c l1 l2 s :
  running s = l1 ++ c :: l2 -> call_id c = r ->
  life_ok s -> life_ok (settled r o (l1 ++ l2) s).
Proof.
  intros E Hc H. eapply life_ok_grow; [exact H|done|..]; simpl.
  - intros r' Hr'. apply list_elem_of_singleton in Hr' as ->. exists c.
    split; [|done]. rewrite E. apply elem_of_app. right. apply list_elem_of_here.
  - intros k Hk. left. rewrite E.
    apply elem_of_app in Hk as [?|?]; apply elem_of_app; [by left|].
    right. by apply list_elem_of_further.
  - intros r' Hr'. nil_elem.
  - intros x Hx. by left.
Qed.

Lemma life_ok_completed w s : life_ok s -> life_ok (completed w s).
Proof.
  intros H. eapply life_ok_grow; [exact H|done|..]; simpl.
  - intros r' Hr'. nil_elem.
  - intros k Hk. by left.
  - intros r' Hr'. nil_elem.
  - intros x Hx. by left.
Qed.

Lemma life_ok_on_reply r o s : life_ok s -> life_ok (on_reply r o s).
Proof.
  intros H.
  destruct (on_reply_cases r o s) as
    [H0|c l1 l2 E Hc Hnin Hs|c l1 l2 E Hc Hnin Hs Hq|c l1 l2 inv qs E Hc Hnin Hs Hq];
    [done|..].
  - by apply (life_ok_settled r o c).
  - by apply life_ok_set_activeCount, life_ok_completed, (life_ok_settled r o c).
  - by apply life_ok_handleSubscribe, life_ok_set_q, life_ok_completed,
      (life_ok_settled r o c).
Qed.

Lemma life_ok_step s e : life_ok s -> life_ok (step s e).
Proof.
  intros H. destruct e as [c a|b f|r o|]; unfold step.
  - assert (forall s', trace s' = trace s ++ [(now s, OQueue c a (nextRetval s))] ->
                       running s' = running s -> loading s' = loading s ->
                       life_ok s') as Hq.
    { intros s' Et Er El. eapply life_ok_grow; [exact H|exact Et|..]; simpl.
      - intros r' Hr'. nil_elem.
      - intros k Hk. left. by rewrite <- Er.
      - intros r' Hr'. nil_elem.
      - intros x Hx. left. by rewrite <- El. }
    destruct (moduleProxy_cases c a s) as [Hs|Hs Hlt|Hs Hge].
    + by apply Hq.
    + apply life_ok_handleSubscribe. by apply Hq.
    + by apply Hq.
  - destruct (on_loaded_cases b f s) as
      [H0|inv l1 l2 E Hs|inv l1 l2 msg E Hs Hf|inv l1 l2 E Hs Hf]; [done|..].
    + eapply life_ok_grow; [exact H|by rewrite app_nil_r|..]; simpl.
      * intros r' Hr'. nil_elem.
      * intros k Hk. by left.
      * intros r' Hr'. nil_elem.
      * intros x Hx. left. rewrite E.
        apply elem_of_app in Hx as [?|?]; apply elem_of_app; [by left|].
        right. by apply list_elem_of_further.
    + eapply life_ok_grow; [exact H|done|..]; simpl.
      * intros r' Hr'. nil_elem.
      * intros k Hk. by left.
      * intros r' Hr'. nil_elem.
      * intros x Hx. left. rewrite E.
        apply elem_of_app in Hx as [?|?]; apply elem_of_app; [by left|].
        right. by apply list_elem_of_further.
    + eapply life_ok_grow; [exact H|done|..]; simpl.
      * intros r' Hr'. nil_elem.
      * intros k [Hk|Hk]%elem_of_app; [by left|right].
        apply list_elem_of_singleton in Hk as ->. apply list_elem_of_here.
      * intros r' Hr'. apply list_elem_of_singleton in Hr' as ->. right.
        exists (b, inv). split; [|done]. rewrite E.
        apply elem_of_app. right. apply list_elem_of_here.
      * intros x Hx. left. rewrite E.
        apply elem_of_app in Hx as [?|?]; apply elem_of_app; [by left|].
        right. by apply list_elem_of_further.
  - by apply life_ok_on_reply.
  - apply tick_invariant.
    + exact H.
    + intros. by apply life_ok_on_reply.
    + intros s' H'. rewrite reap_spec.
      eapply life_ok_grow; [exact H'|done|..].
      * rewrite settlements_reap. intros r' Hr'. nil_elem.
      * intros k Hk. by left.
      * rewrite invocations_reap. intros r' Hr'. nil_elem.
      * intros x Hx. by left.
Qed.

(** A [retval] that was created and not settled is pending. *)
Definition pend_ok (s : Pool) : Prop :=
  forall r, (r < nextRetval s)%nat -> r ∉ settlements (trace s) ->
            retvals s !! r = Some Pending.

Lemma pend_ok_frame s s' l :
  pend_ok s -> trace s' = trace s ++ l -> settlements l = [] ->
  retvals s' = retvals s -> nextRetval s' = nextRetval s -> pend_ok s'.
Proof.
  intros H Et El Er En r. rewrite Et, settlements_app, El, app_nil_r, Er, En.
  apply H.
Qed.

Lemma pend_ok_handleSubscribe inv s : pend_ok s -> pend_ok (handleSubscribe inv s).
Proof.
  intros H.
  destruct (handleSubscribe_cases inv s) as [(fl & w & E & ->)|[E ->]];
    by eapply pend_ok_frame.
Qed.

Lemma pend_ok_set_q s l : pend_ok s -> pend_ok (set_q s l).
Proof. intros H. exact H. Qed.

Lemma pend_ok_set_activeCount s n : pend_ok s -> pend_ok (set_activeCount s n).
Proof. intros H. exact H. Qed.

Lemma pend_ok_settled r o rest s : pend_ok s -> pend_ok (settled r o rest s).
Proof.
  intros H r' Hlt Hn. simpl in *. rewrite settlements_app in Hn. simpl in Hn.
  rewrite lookup_insert_ne.
  - apply H; [done|]. intros Hin. apply Hn, elem_of_app. by left.
  - intros <-. apply Hn, elem_of_app. right. apply list_elem_of_here.
Qed.

Lemma pend_ok_completed w s : pend_ok s -> pend_ok (completed w s).
Proof. intros H. by eapply pend_ok_frame. Qed.

Lemma pend_ok_on_reply r o s : pend_ok s -> pend_ok (on_reply r o s).
Proof.
  intros H.
  destruct (on_reply_cases r o s) as
    [H0|c l1 l2 E Hc Hnin Hs|c l1 l2 E Hc Hnin Hs Hq|c l1 l2 inv qs E Hc Hnin Hs Hq];
    [done|..].
  - by apply pend_ok_settled.
  - by apply pend_ok_set_activeCount, pend_ok_completed, pend_ok_settled.
  - by apply pend_ok_handleSubscribe, pend_ok_set_q, pend_ok_completed,
      pend_ok_settled.
Qed.

Lemma pend_ok_step s e : pend_ok s -> pend_ok (step s e).
Proof.
  intros H. destruct e as [c a|b f|r o|]; unfold step.
  - assert (forall s', trace s' = trace s ++ [(now s, OQueue c a (nextRetval s))] ->
                       retvals s' = <[nextRetval s := Pending]> (retvals s) ->
                       nextRetval s' = S (nextRetval s) -> pend_ok s') as Hq.
    { intros s' Et Er En r Hlt Hn.
      rewrite Et, settlements_app in Hn. simpl in Hn. rewrite app_nil_r in Hn.
      rewrite Er. destruct (decide (r = nextRetval s)) as [->|Hne].
      - apply lookup_insert_eq.
      - rewrite lookup_insert_ne by done. apply H; [lia|done]. }
    destruct (moduleProxy_cases c a s) as [Hs|Hs Hlt|Hs Hge].
    + by apply Hq.
    + apply pend_ok_handleSubscribe. by apply Hq.
    + by apply Hq.
  - destruct (on_loaded_cases b f s) as
      [H0|inv l1 l2 E Hs|inv l1 l2 msg E Hs Hf|inv l1 l2 E Hs Hf]; [done|done|..];
      by eapply pend_ok_frame.
  - by apply pend_ok_on_reply.
  - apply tick_invariant.
    + exact H.
    + intros. by apply pend_ok_on_reply.
    + intros s' H'. rewrite reap_spec.
      eapply (pend_ok_frame s'); [done|done| |done|done].
      apply settlements_reap.
Qed.

(** X6. An invocation goes through its stages in order: a future is
    settled only after the remote call of its invocation was sent, a call
    is sent only for an invocation the merge started, and only calls made
    on the proxy are started. The future of a call is pending until then:
    it is resolved or rejected if the answer of its remote call is on
    record, and pending otherwise. *)
Theorem future_lifecycle path max es :
  let s := run (RendererTaskpoolItem path max) es in
  (forall r, r ∈ settlements (trace s) -> r ∈ invocations (trace s))
  /\ (forall r, r ∈ invocations (trace s) -> r ∈ starts (trace s))
  /\ (forall r, r ∈ starts (trace s) -> r ∈ submissions (trace s))
  /\ (forall r, r ∈ submissions (trace s) ->
        (r ∈ settlements (trace s) /\ exists o, retvals s !! r = Some (settle o))
        \/ ((r ∉ settlements (trace s)) /\ retvals s !! r = Some Pending)).
Proof.
  intros s.
  assert (life_ok s) as (L1 & _ & L3 & _).
  { apply (run_invariant life_ok); [apply life_ok_step|].
    split_and!; intros x Hx; by apply elem_of_nil in Hx. }
  assert (pend_ok s) as Hp.
  { apply (run_invariant pend_ok); [apply pend_ok_step|].
    intros r Hr. simpl in Hr. lia. }
  assert (fifo_ok s) as [_ (rest & Hf & _)].
  { apply (run_invariant fifo_ok); [apply fifo_ok_step|].
    split; simpl; [by left|]. by exists []. }
  assert (fresh_ok s) as [_ Hlt] by apply fresh_ok_run.
  assert (deadline_ok s) as (_ & _ & _ & Hs) by apply deadline_ok_run.
  rewrite Forall_forall in Hlt.
  split_and!; [done|done| |].
  - intros r Hr. rewrite Hf. apply elem_of_app. by left.
  - intros r Hr. destruct (decide (r ∈ settlements (trace s))) as [Hin|Hn].
    + left. split; [done|]. by apply Hs.
    + right. split; [done|]. apply Hp; [|done]. by apply Hlt.
Qed.
(** ** Waiting for a window to load *)

(** The events of the [webContents] of a window. *)
Inductive WcEvent : Type :=
| did_finish_load
| did_fail_load (errCode : Z) (errMsg : string)
| other_event (name : string).

(** A promise: its executor calls [res] and [rej], and only the first of
    these calls has an effect. *)
Inductive Promise (A E : Type) : Type :=
| PPending
| PResolved (v : A)
| PRejected (e : E).
Arguments PPending {A E}.
Arguments PResolved {A E} v.
Arguments PRejected {A E} e.

Definition res {A E} (v : A) (p : Promise A E) : Promise A E :=
  match p with PPending => PResolved v | _ => p end.

Definition rej {A E} (e : E) (p : Promise A E) : Promise A E :=
  match p with PPending => PRejected e | _ => p end.

(** The promise of [windowIsReady] with its two listeners; a listener
    registered with [once] is removed when it is called. *)
Record Ready : Type := mkReady {
  onFinish : bool;
  onFail : bool;
  promise : Promise bool string
}.

(** [webContents] emits an event. *)
Definition emit (st : Ready) (e : WcEvent) : Ready :=
  match e with
  | did_finish_load =>
      if onFinish st then mkReady false (onFail st) (res true (promise st)) else st
  | did_fail_load _ errMsg =>
      if onFail st then mkReady (onFinish st) false (rej errMsg (promise st)) else st
  | other_event _ => st
  end.

(** [windowIsReady(bw)], after [bw.webContents] emitted [es]; an error is
    given by its message. *)
Definition windowIsReady (es : list WcEvent) : Promise bool string :=
  promise (foldl emit (mkReady true true PPending) es).

Definition is_other (e : WcEvent) : Prop :=
  match e with other_event _ => True | _ => False end.

Lemma emit_others st es : Forall is_other es -> foldl emit st es = st.
Proof.
  intros H. revert st. induction H as [|e es He _ IH]; intros st; [done|].
  destruct e; try done. simpl. apply IH.
Qed.

Lemma emit_settled st es :
  promise st <> PPending -> promise (foldl emit st es) = promise st.
Proof.
  revert st. induction es as [|e es IH]; intros st Hp; [done|].
  simpl. assert (promise (emit st e) = promise st) as E.
  { destruct e; simpl; try done.
    - destruct (onFinish st); [|done]. simpl. by destruct (promise st).
    - destruct (onFail st); [|done]. simpl. by destruct (promise st). }
  rewrite IH; [done|]. by rewrite E.
Qed.

(** X7. The promise of [windowIsReady] is decided by the first load event
    of the window: it is pending as long as the window emits neither
    [did-finish-load] nor [did-fail-load], resolved with [true] if the
    first of the two is [did-finish-load], rejected with the message of
    the event if it is [did-fail-load], and once it is settled no later
    event changes it. *)
Theorem windowIsReady_first_load_event :
  (forall es, Forall is_other es -> windowIsReady es = PPending)
  /\ (forall es1 es2, Forall is_other es1 ->
        windowIsReady (es1 ++ did_finish_load :: es2) = PResolved true)
  /\ (forall es1 errCode errMsg es2, Forall is_other es1 ->
        windowIsReady (es1 ++ did_fail_load errCode errMsg :: es2)
        = PRejected errMsg)
  /\ (forall es1 es2, windowIsReady es1 <> PPending ->
        windowIsReady (es1 ++ es2) = windowIsReady es1).
Proof.
  unfold windowIsReady. split_and!.
  - intros es H. by rewrite emit_others.
  - intros es1 es2 H. rewrite foldl_app, (emit_others _ es1) by done. simpl.
    by rewrite emit_settled.
  - intros es1 errCode errMsg es2 H. rewrite foldl_app, (emit_others _ es1) by done.
    simpl. by rewrite emit_settled.
  - intros es1 es2 H. rewrite foldl_app. by apply emit_settled.
Qed.
